(** * Whist: the rules engine (src/game.ts) and the room projections
      (src/server.ts), embedded in Rocq.

    Conventions of the embedding.
    - A JavaScript number held by the engine is an integer or NaN ([jsnum]);
      NaN arises from arithmetic on [undefined] and from [% 0].  Integers
      are exact ([Z]); the rounding of doubles beyond 2^53 is not modelled.
    - Strings are sequences of 8-bit code units.
    - An object used as a dictionary keyed by player id is a finite map
      ([gmap string _]); a missing key reads as [undefined] (here [None]).
      Player ids are ordinary keys, none a property of [Object.prototype].
    - A method of [WhistGame] that mutates [this] and may throw is a
      computation in the monad [M]: it returns the state at the point where
      control leaves the method, with either a value or the error thrown.
      A dereference of [undefined] throws [TypeError].
    - The snapshot that the actions return ([getPublicState]) copies fields
      and writes nothing; the actions are modelled as returning nothing, and
      [playCard] its pair [trickEnded], [trickWinner].
    - [Math.random] is an oracle passed to [startHand] and [nextHand].
    - Of server.ts, [buildHandsViewFor] and the body of the playing branch of
      the automated player's timer callback are embedded; sockets and timers
      are not. *)

From stdpp Require Import base decidable option list strings gmap fin_maps pretty.
From Stdlib Require Import ZArith Lia Ascii.

Open Scope Z_scope.

(** ** JavaScript numbers and array indexing *)

Module Js.

(** A number held by the engine: an integer, or NaN (the result of
    arithmetic on [undefined] or of [% 0]). *)
Inductive jsnum := NaN | Num (z : Z).

#[global] Instance jsnum_eq_dec : EqDecision jsnum.
Proof. solve_decision. Defined.

Definition add (a b : jsnum) : jsnum :=
  match a, b with Num x, Num y => Num (x + y) | _, _ => NaN end.

Definition sub (a b : jsnum) : jsnum :=
  match a, b with Num x, Num y => Num (x - y) | _, _ => NaN end.

Definition abs (a : jsnum) : jsnum :=
  match a with Num x => Num (Z.abs x) | NaN => NaN end.

(** [a % b]: the sign follows the dividend, and [% 0] is NaN. *)
Definition rem (a b : jsnum) : jsnum :=
  match a, b with
  | Num x, Num y => if decide (y = 0) then NaN else Num (Z.rem x y)
  | _, _ => NaN
  end.

(** [ToNumber] of a property read: a missing property is [undefined],
    which converts to NaN. *)
Definition ofProp (o : option jsnum) : jsnum := default NaN o.

(** [arr[i]]: [undefined] (here [None]) unless [i] is an index in range. *)
Definition at_ {A} (l : list A) (i : jsnum) : option A :=
  match i with
  | Num z => if decide (0 <= z) then l !! Z.to_nat z else None
  | NaN => None
  end.

(** [arr.indexOf(x)], [-1] when absent. *)
Fixpoint indexOfFrom {A} `{EqDecision A} (x : A) (l : list A) (i : Z) : Z :=
  match l with
  | [] => -1
  | y :: l' => if decide (y = x) then i else indexOfFrom x l' (i + 1)
  end.

Definition indexOf {A} `{EqDecision A} (l : list A) (x : A) : Z :=
  indexOfFrom x l 0.

(** A property key computed from a value that may be [undefined]. *)
Definition key (o : option string) : string := default "undefined" o.

(** *** [parseInt(s, 10)]

    Strings are sequences of 8-bit code units.  The result is the exact
    integer denoted by the longest digit prefix (after white space and an
    optional sign), or NaN when there is no digit. *)

Definition isWhite (a : ascii) : bool :=
  let n := nat_of_ascii a in
  bool_decide (n = 9 ∨ n = 10 ∨ n = 11 ∨ n = 12 ∨ n = 13 ∨ n = 32 ∨ n = 160)%nat.

Fixpoint skipWhite (s : string) : string :=
  match s with
  | String a r => if isWhite a then skipWhite r else s
  | EmptyString => s
  end.

Definition digitOf (a : ascii) : option Z :=
  let n := nat_of_ascii a in
  if decide (48 ≤ n ≤ 57)%nat then Some (Z.of_nat n - 48) else None.

Fixpoint readDigits (s : string) (acc : option Z) : option Z :=
  match s with
  | String a r =>
      match digitOf a with
      | Some d => readDigits r (Some (10 * default 0 acc + d))
      | None => acc
      end
  | EmptyString => acc
  end.

Definition parseInt10 (s : string) : jsnum :=
  let t := skipWhite s in
  let '(sign, body) :=
    match t with
    | String "-" r => (-1, r)
    | String "+" r => (1, r)
    | _ => (1, t)
    end in
  match readDigits body None with
  | Some n => Num (sign * n)
  | None => NaN
  end.

(** [s.slice(-1)] and [s.slice(0, -1)]. *)
Fixpoint sliceLast (s : string) : string :=
  match s with
  | EmptyString => EmptyString
  | String a EmptyString => s
  | String _ r => sliceLast r
  end.

Fixpoint sliceInit (s : string) : string :=
  match s with
  | EmptyString => EmptyString
  | String a EmptyString => EmptyString
  | String a r => String a (sliceInit r)
  end.

End Js.

Import Js.

(** ** Cards *)

Inductive Suit := S_ | H_ | D_ | C_.

Inductive Phase :=
  | waiting | choose_trump | bidding | playing | hand_end | game_end | trick_pause.

Record Card := mkCard { suit : Suit; rank : Z }.

Record TrickEntry := mkEntry { pid : string; card : Card }.

Inductive Outcome := Plus | Minus.

Record Streak := mkStreak { type : option Outcome; count : Z }.

#[global] Instance Suit_eq_dec : EqDecision Suit.
Proof. solve_decision. Defined.
#[global] Instance Phase_eq_dec : EqDecision Phase.
Proof. solve_decision. Defined.
#[global] Instance Card_eq_dec : EqDecision Card.
Proof. solve_decision. Defined.
#[global] Instance TrickEntry_eq_dec : EqDecision TrickEntry.
Proof. solve_decision. Defined.
#[global] Instance Outcome_eq_dec : EqDecision Outcome.
Proof. solve_decision. Defined.
#[global] Instance Streak_eq_dec : EqDecision Streak.
Proof. solve_decision. Defined.

Definition SUITS : list Suit := [S_; H_; D_; C_].

Definition RANKS_ASC : list Z := [2; 3; 4; 5; 6; 7; 8; 9; 10; 11; 12; 13; 14].

Definition suitLetter (s : Suit) : string :=
  match s with S_ => "S" | H_ => "H" | D_ => "D" | C_ => "C" end.

(** The suit denoted by a wire string, if it is one of [SUITS]. *)
Definition suitOfString (s : string) : option Suit :=
  if decide (s = "S") then Some S_
  else if decide (s = "H") then Some H_
  else if decide (s = "D") then Some D_
  else if decide (s = "C") then Some C_
  else None.

Definition cardToString (c : Card) : string :=
  let r := rank c in
  let rs := if decide (r = 14) then "A"
            else if decide (r = 13) then "K"
            else if decide (r = 12) then "Q"
            else if decide (r = 11) then "J"
            else pretty r in
  rs +:+ suitLetter (suit c).

Inductive Error :=
  | Invalid_suit
  | Invalid_rank
  | Deck_size_mismatch
  | Not_in_bidding_phase
  | Not_your_turn_to_bid
  | Bid_must_be_an_integer
  | Dealer_cannot_bid
  | Not_in_choose_trump_phase
  | Not_your_turn_to_choose_trump
  | Invalid_trump_suit
  | Not_in_playing_phase
  | Not_your_turn
  | You_do_not_have_that_card
  | You_must_follow_suit
  | You_must_play_trump
  | Card_not_in_hand
  | Cannot_start_next_hand_now
  | Cannot_resume_trick_now
  | TypeError.

#[global] Instance Error_eq_dec : EqDecision Error.
Proof. solve_decision. Defined.

Definition stringToCard (s : string) : Error + Card :=
  match suitOfString (sliceLast s) with
  | None => inl Invalid_suit
  | Some su =>
      let r := sliceInit s in
      let rk := if decide (r = "A") then Num 14
                else if decide (r = "K") then Num 13
                else if decide (r = "Q") then Num 12
                else if decide (r = "J") then Num 11
                else parseInt10 r in
      match rk with
      | Num z => inr (mkCard su z)
      | NaN => inl Invalid_rank
      end
  end.

(** [compareCards]: 1 if [a] beats [b], -1 if [b] beats [a], 0 otherwise. *)
Definition compareCards (a b : Card) (leadSuit trumpSuit : option Suit) : Z :=
  let aTrump := bool_decide (Some (suit a) = trumpSuit) in
  let bTrump := bool_decide (Some (suit b) = trumpSuit) in
  if aTrump && negb bTrump then 1
  else if negb aTrump && bTrump then -1
  else
    let aLead := bool_decide (Some (suit a) = leadSuit) in
    let bLead := bool_decide (Some (suit b) = leadSuit) in
    if aLead && negb bLead then 1
    else if negb aLead && bLead then -1
    else if negb (bool_decide (suit a = suit b)) then 0
    else if bool_decide (rank a = rank b) then 0
    else if bool_decide (rank a > rank b) then 1 else -1.

Definition buildSchedule (numPlayers : nat) : list Z :=
  replicate numPlayers 1 ++ [2; 3; 4; 5; 6; 7]
  ++ replicate numPlayers 8 ++ [7; 6; 5; 4; 3; 2]
  ++ replicate numPlayers 1.

(** ** Session state *)

Record WhistGame := mkGame {
  playerIds : list string;
  dealerIndex : jsnum;
  schedule : list Z;
  handIndex : Z;
  totalScores : gmap string jsnum;
  streaks : gmap string Streak;
  phase : Phase;
  trumpSuit : option Suit;
  hands : gmap string (list Card);
  bids : gmap string (option Z);
  tricksWon : gmap string jsnum;
  currentTrick : list TrickEntry;
  leadSuit : option Suit;
  pendingPlayTurnIndex : option jsnum;
  bidTurnIndex : jsnum;
  playTurnIndex : option jsnum
}.

(** Field assignments [this.f = v]. *)
Section Setters.
Context (g : WhistGame).

Definition set_playerIds v :=
  mkGame v (dealerIndex g) (schedule g) (handIndex g) (totalScores g) (streaks g)
    (phase g) (trumpSuit g) (hands g) (bids g) (tricksWon g) (currentTrick g)
    (leadSuit g) (pendingPlayTurnIndex g) (bidTurnIndex g) (playTurnIndex g).
Definition set_dealerIndex v :=
  mkGame (playerIds g) v (schedule g) (handIndex g) (totalScores g) (streaks g)
    (phase g) (trumpSuit g) (hands g) (bids g) (tricksWon g) (currentTrick g)
    (leadSuit g) (pendingPlayTurnIndex g) (bidTurnIndex g) (playTurnIndex g).
Definition set_handIndex v :=
  mkGame (playerIds g) (dealerIndex g) (schedule g) v (totalScores g) (streaks g)
    (phase g) (trumpSuit g) (hands g) (bids g) (tricksWon g) (currentTrick g)
    (leadSuit g) (pendingPlayTurnIndex g) (bidTurnIndex g) (playTurnIndex g).
Definition set_totalScores v :=
  mkGame (playerIds g) (dealerIndex g) (schedule g) (handIndex g) v (streaks g)
    (phase g) (trumpSuit g) (hands g) (bids g) (tricksWon g) (currentTrick g)
    (leadSuit g) (pendingPlayTurnIndex g) (bidTurnIndex g) (playTurnIndex g).
Definition set_streaks v :=
  mkGame (playerIds g) (dealerIndex g) (schedule g) (handIndex g) (totalScores g) v
    (phase g) (trumpSuit g) (hands g) (bids g) (tricksWon g) (currentTrick g)
    (leadSuit g) (pendingPlayTurnIndex g) (bidTurnIndex g) (playTurnIndex g).
Definition set_phase v :=
  mkGame (playerIds g) (dealerIndex g) (schedule g) (handIndex g) (totalScores g)
    (streaks g) v (trumpSuit g) (hands g) (bids g) (tricksWon g)
    (currentTrick g) (leadSuit g) (pendingPlayTurnIndex g) (bidTurnIndex g)
    (playTurnIndex g).
Definition set_trumpSuit v :=
  mkGame (playerIds g) (dealerIndex g) (schedule g) (handIndex g) (totalScores g)
    (streaks g) (phase g) v (hands g) (bids g) (tricksWon g) (currentTrick g)
    (leadSuit g) (pendingPlayTurnIndex g) (bidTurnIndex g) (playTurnIndex g).
Definition set_hands v :=
  mkGame (playerIds g) (dealerIndex g) (schedule g) (handIndex g) (totalScores g)
    (streaks g) (phase g) (trumpSuit g) v (bids g) (tricksWon g)
    (currentTrick g) (leadSuit g) (pendingPlayTurnIndex g) (bidTurnIndex g)
    (playTurnIndex g).
Definition set_bids v :=
  mkGame (playerIds g) (dealerIndex g) (schedule g) (handIndex g) (totalScores g)
    (streaks g) (phase g) (trumpSuit g) (hands g) v (tricksWon g)
    (currentTrick g) (leadSuit g) (pendingPlayTurnIndex g) (bidTurnIndex g)
    (playTurnIndex g).
Definition set_tricksWon v :=
  mkGame (playerIds g) (dealerIndex g) (schedule g) (handIndex g) (totalScores g)
    (streaks g) (phase g) (trumpSuit g) (hands g) (bids g) v (currentTrick g)
    (leadSuit g) (pendingPlayTurnIndex g) (bidTurnIndex g) (playTurnIndex g).
Definition set_currentTrick v :=
  mkGame (playerIds g) (dealerIndex g) (schedule g) (handIndex g) (totalScores g)
    (streaks g) (phase g) (trumpSuit g) (hands g) (bids g) (tricksWon g) v
    (leadSuit g) (pendingPlayTurnIndex g) (bidTurnIndex g) (playTurnIndex g).
Definition set_leadSuit v :=
  mkGame (playerIds g) (dealerIndex g) (schedule g) (handIndex g) (totalScores g)
    (streaks g) (phase g) (trumpSuit g) (hands g) (bids g) (tricksWon g)
    (currentTrick g) v (pendingPlayTurnIndex g) (bidTurnIndex g)
    (playTurnIndex g).
Definition set_pendingPlayTurnIndex v :=
  mkGame (playerIds g) (dealerIndex g) (schedule g) (handIndex g) (totalScores g)
    (streaks g) (phase g) (trumpSuit g) (hands g) (bids g) (tricksWon g)
    (currentTrick g) (leadSuit g) v (bidTurnIndex g) (playTurnIndex g).
Definition set_bidTurnIndex v :=
  mkGame (playerIds g) (dealerIndex g) (schedule g) (handIndex g) (totalScores g)
    (streaks g) (phase g) (trumpSuit g) (hands g) (bids g) (tricksWon g)
    (currentTrick g) (leadSuit g) (pendingPlayTurnIndex g) v (playTurnIndex g).
Definition set_playTurnIndex v :=
  mkGame (playerIds g) (dealerIndex g) (schedule g) (handIndex g) (totalScores g)
    (streaks g) (phase g) (trumpSuit g) (hands g) (bids g) (tricksWon g)
    (currentTrick g) (leadSuit g) (pendingPlayTurnIndex g) (bidTurnIndex g) v.
End Setters.

(** ** The state-and-exception monad of the methods *)

Inductive Result (A : Type) := Ok (a : A) | Throw (e : Error).
Arguments Ok {A} a.
Arguments Throw {A} e.

Definition M (A : Type) : Type := WhistGame → WhistGame * Result A.

#[global] Instance M_ret : MRet M := λ A a g, (g, Ok a).
#[global] Instance M_bind : MBind M := λ A B f m g,
  match m g with
  | (g', Ok a) => f a g'
  | (g', Throw e) => (g', Throw e)
  end.

Definition get : M WhistGame := λ g, (g, Ok g).
Definition modify (f : WhistGame → WhistGame) : M unit := λ g, (f g, Ok tt).
Definition throw {A} (e : Error) : M A := λ g, (g, Throw e).

Definition skip : M unit := mret tt.

(** [if (c) throw new Error(e)]. *)
Definition throwIf (c : bool) (e : Error) : M unit :=
  if c then throw e else skip.

(** A read that raises a TypeError when the object read from is [undefined]. *)
Definition deref {A} (o : option A) : M A :=
  match o with Some a => mret a | None => throw TypeError end.

Definition liftE {A} (r : Error + A) : M A :=
  match r with inl e => throw e | inr a => mret a end.

(** ** The engine: class [WhistGame] *)

Definition numPlayers (g : WhistGame) : nat := length (playerIds g).

Definition numPlayersN (g : WhistGame) : jsnum := Num (Z.of_nat (numPlayers g)).

(** [this.schedule[this.handIndex] || 1] *)
Definition currentHandSize (g : WhistGame) : Z :=
  match at_ (schedule g) (Num (handIndex g)) with
  | Some v => if decide (v = 0) then 1 else v
  | None => 1
  end.

Definition _minRankForPlayers (n : Z) : Z := 15 - 2 * n.

(** The two nested loops of [_createBaseDeck]. *)
Definition baseDeckCards (n : Z) : list Card :=
  s ← SUITS;
  r ← filter (λ r, r >= _minRankForPlayers n) RANKS_ASC;
  [mkCard s r].

Definition _createBaseDeck : M (list Card) :=
  g ← get;
  let n := Z.of_nat (numPlayers g) in
  let needed := 8 * n in
  let deck := baseDeckCards n in
  throwIf (bool_decide (Z.of_nat (length deck) ≠ needed)) Deck_size_mismatch;;
  mret deck.

Definition resetMap {V} (v : V) (ps : list string) : gmap string V :=
  foldl (λ m p, <[p := v]> m) ∅ ps.

Definition _resetForNextHand : M unit :=
  modify (λ g,
    let ps := playerIds g in
    set_hands (set_tricksWon (set_bids
      (set_pendingPlayTurnIndex (set_leadSuit (set_currentTrick
        (set_trumpSuit (set_phase g waiting) None) []) None) None)
      (resetMap None ps)) (resetMap (Num 0) ps)) (resetMap [] ps)).

(** *** Shuffling and dealing

    [Math.random] is an oracle: [rnd i] stands for the draw made at loop
    index [i] of [shuffle], reduced to the range [0..i] that
    [Math.floor(Math.random() * (i + 1))] has. *)

Definition swap {A} (l : list A) (i j : nat) : list A :=
  match l !! i, l !! j with
  | Some x, Some y => <[j := x]> (<[i := y]> l)
  | _, _ => l
  end.

Fixpoint shuffleFrom {A} (rnd : nat → nat) (i : nat) (arr : list A) : list A :=
  match i with
  | O => arr
  | S i' => shuffleFrom rnd i' (swap arr i (rnd i `mod` (i + 1))%nat)
  end.

Definition shuffle {A} (rnd : nat → nat) (arr : list A) : list A :=
  shuffleFrom rnd (length arr - 1)%nat arr.

(** [deck.pop()] *)
Definition pop {A} (l : list A) : option A * list A :=
  (last l, removelast l).

(** The body of the inner dealing loop, for seat offset [p]. *)
Definition dealOne (startIndex : jsnum) (p : nat) (deck : list Card)
  : M (list Card) :=
  g ← get;
  let pid := key (at_ (playerIds g)
                  (rem (add startIndex (Num (Z.of_nat p))) (numPlayersN g))) in
  let '(c, deck') := pop deck in
  match c with
  | Some c =>
      h ← deref (hands g !! pid);
      modify (λ g, set_hands g (<[pid := h ++ [c]]> (hands g)));;
      mret deck'
  | None => mret deck'
  end.

Fixpoint forM {A} (xs : list nat) (f : nat → A → M A) (a : A) : M A :=
  match xs with
  | [] => mret a
  | x :: xs' => a' ← f x a; forM xs' f a'
  end.

Definition deal (startIndex : jsnum) (handSize : Z) (deck : list Card)
  : M (list Card) :=
  g ← get;
  forM (seq 0 (Z.to_nat handSize))
       (λ _ d, forM (seq 0 (numPlayers g)) (dealOne startIndex) d) deck.

(** The display order of [startHand]: by suit letter ([localeCompare]), then
    by rank. *)
Definition suitOrd (s : Suit) : Z :=
  match s with C_ => 0 | D_ => 1 | H_ => 2 | S_ => 3 end.

Definition sortCmp (a b : Card) : Z :=
  if decide (suit a = suit b) then rank a - rank b
  else if decide (suitOrd a.(suit) < suitOrd b.(suit)) then -1 else 1.

Fixpoint insertSorted (x : Card) (l : list Card) : list Card :=
  match l with
  | [] => [x]
  | y :: r => if decide (sortCmp x y <= 0) then x :: l else y :: insertSorted x r
  end.

(** [Array.prototype.sort] is stable; insertion from the right is too. *)
Definition sortHand (l : list Card) : list Card := foldr insertSorted [] l.

Fixpoint sortHands (ps : list string) : M unit :=
  match ps with
  | [] => skip
  | p :: ps' =>
      g ← get;
      h ← deref (hands g !! p);
      modify (λ g, set_hands g (<[p := sortHand h]> (hands g)));;
      sortHands ps'
  end.

Definition startHand (rnd : nat → nat) : M unit :=
  _resetForNextHand;;
  g ← get;
  let handSize := currentHandSize g in
  deck0 ← _createBaseDeck;
  let deck := shuffle rnd deck0 in
  (if decide (handSize ≠ 8)
   then c ← deref (deck !! 0%nat); modify (λ g, set_trumpSuit g (Some (suit c)))
   else skip);;
  let startIndex := rem (add (dealerIndex g) (Num 1)) (numPlayersN g) in
  deal startIndex handSize deck;;
  sortHands (playerIds g);;
  modify (λ g, set_playTurnIndex
    (set_phase (set_bidTurnIndex g startIndex)
       (if decide (handSize = 8) then choose_trump else bidding)) None).

Definition getCurrentBidder (g : WhistGame) : option string :=
  at_ (playerIds g) (bidTurnIndex g).

Definition _sumBidsSoFar (g : WhistGame) (excludePid : string) : Z :=
  foldl (λ sum p,
           if decide (p = excludePid) then sum
           else match bids g !! p with
                | Some (Some b) => sum + b
                | _ => sum
                end) 0 (playerIds g).

(** [typeof this.bids[p] === 'number'] *)
Definition hasBid (g : WhistGame) (p : string) : bool :=
  match bids g !! p with Some (Some _) => true | _ => false end.

(** [placeBid].  The argument is a JavaScript number; every value that
    [Number.isInteger] rejects (NaN, fractions, infinities) takes the same
    path and is written [NaN]. *)
Definition placeBid (pid : string) (bid : jsnum) : M unit :=
  g ← get;
  throwIf (bool_decide (phase g ≠ bidding)) Not_in_bidding_phase;;
  throwIf (bool_decide (Some pid ≠ getCurrentBidder g)) Not_your_turn_to_bid;;
  let handSize := currentHandSize g in
  match bid with
  | NaN => throw Bid_must_be_an_integer
  | Num b =>
      throwIf (bool_decide (b < 0) || bool_decide (b > handSize))
        Bid_must_be_an_integer;;
      let isDealer := bool_decide (Some pid = at_ (playerIds g) (dealerIndex g)) in
      (if isDealer
       then
         let sumOthers := _sumBidsSoFar g pid in
         let forbidden := handSize - sumOthers in
         throwIf (bool_decide (b = forbidden)) Dealer_cannot_bid
       else skip);;
      modify (λ g, set_bids g (<[pid := Some b]> (bids g)));;
      modify (λ g, set_bidTurnIndex g
                     (rem (add (bidTurnIndex g) (Num 1)) (numPlayersN g)));;
      g' ← get;
      let allBids := forallb (hasBid g') (playerIds g') in
      if allBids
      then modify (λ g,
             set_leadSuit (set_currentTrick (set_playTurnIndex
               (set_phase g playing)
               (Some (rem (add (dealerIndex g) (Num 1)) (numPlayersN g)))) []) None)
      else skip
  end.

(** [chooseTrump].  The suit arrives as an arbitrary wire string. *)
Definition chooseTrump (pid : string) (suitStr : string) : M unit :=
  g ← get;
  throwIf (bool_decide (phase g ≠ choose_trump)) Not_in_choose_trump_phase;;
  throwIf (bool_decide (Some pid ≠ getCurrentBidder g))
    Not_your_turn_to_choose_trump;;
  match suitOfString suitStr with
  | None => throw Invalid_trump_suit
  | Some su => modify (λ g, set_phase (set_trumpSuit g (Some su)) bidding)
  end.

Definition getCurrentPlayer (g : WhistGame) : option string :=
  if decide (phase g ≠ playing) then None
  else at_ (playerIds g) (default (Num 0) (playTurnIndex g)).

Definition sameCard (x : Card) (c : Card) : bool :=
  bool_decide (suit c = suit x) && bool_decide (rank c = rank x).

Definition _hasSuit (pid : string) (su : option Suit) : M bool :=
  match su with
  | None => mret false
  | Some su =>
      g ← get;
      h ← deref (hands g !! pid);
      mret (existsb (λ c, bool_decide (suit c = su)) h)
  end.

Fixpoint findIndex {A} (f : A → bool) (l : list A) : option nat :=
  match l with
  | [] => None
  | x :: r => if f x then Some O else S <$> findIndex f r
  end.

Definition _removeCardFromHand (pid : string) (c : Card) : M Card :=
  g ← get;
  h ← deref (hands g !! pid);
  match findIndex (sameCard c) h with
  | None => throw Card_not_in_hand
  | Some idx =>
      removed ← deref (h !! idx);
      modify (λ g, set_hands g (<[pid := delete idx h]> (hands g)));;
      mret removed
  end.

Record PlayResult := mkPlayResult {
  trickEnded : bool;
  trickWinner : option string
}.

(** The winner loop of [playCard], started with the first entry as best. *)
Fixpoint resolveTrick (rest : list TrickEntry) (lead trump : option Suit)
    (winner : string) (bestCard : Card) : string * Card :=
  match rest with
  | [] => (winner, bestCard)
  | e :: rest' =>
      if decide (compareCards (card e) bestCard lead trump = 1)
      then resolveTrick rest' lead trump (pid e) (card e)
      else resolveTrick rest' lead trump winner bestCard
  end.

(** [winner]/[bestCard] initialised from [currentTrick[0]], then the loop. *)
Definition trickWinnerOf (trick : list TrickEntry) (lead trump : option Suit)
  : option (string * Card) :=
  match trick with
  | [] => None
  | e :: rest => Some (resolveTrick rest lead trump (pid e) (card e))
  end.

(** [this.playerIds.every(p => this.hands[p].length === 0)] *)
Fixpoint everyHandEmpty (ps : list string) : M bool :=
  match ps with
  | [] => mret true
  | p :: ps' =>
      g ← get;
      h ← deref (hands g !! p);
      if decide (h = []) then everyHandEmpty ps' else mret false
  end.

(** [bid === won], where either side may be [undefined]. *)
Definition bidEqualsWon (bid : option (option Z)) (won : option jsnum) : bool :=
  match bid, won with
  | None, None => true
  | Some (Some b), Some (Num w) => bool_decide (b = w)
  | _, _ => false
  end.

(** [bid ?? 0] *)
Definition bidOrZero (bid : option (option Z)) : jsnum :=
  match bid with Some (Some b) => Num b | _ => Num 0 end.

(** The body of the loop of [_scoreHand], for one seat. *)
Definition scoreSeat (g : WhistGame) (pid : string) : WhistGame :=
  let bid := bids g !! pid in
  let won := tricksWon g !! pid in
  let success := bidEqualsWon bid won in
  let score0 := ofProp (totalScores g !! pid) in
  let score1 :=
    if success then add score0 (add (Num 5) (ofProp won))
    else sub score0 (abs (sub (bidOrZero bid) (ofProp won))) in
  let outcome := if success then Plus else Minus in
  let st := default (mkStreak None 0) (streaks g !! pid) in
  let st1 :=
    if decide (type st = Some outcome) then mkStreak (type st) (count st + 1)
    else mkStreak (Some outcome) 1 in
  if decide (count st1 >= 5)
  then
    let score2 :=
      match outcome with
      | Plus => add score1 (Num 10)
      | Minus => sub score1 (Num 10)
      end in
    set_streaks (set_totalScores g (<[pid := score2]> (totalScores g)))
      (<[pid := mkStreak None 0]> (streaks g))
  else
    set_streaks (set_totalScores g (<[pid := score1]> (totalScores g)))
      (<[pid := st1]> (streaks g)).

Definition _scoreHand : M unit :=
  modify (λ g, foldl scoreSeat g (playerIds g)).

Definition playCard (pid : string) (cardStr : string) : M PlayResult :=
  g ← get;
  throwIf (bool_decide (phase g ≠ playing)) Not_in_playing_phase;;
  throwIf (bool_decide (Some pid ≠ getCurrentPlayer g)) Not_your_turn;;
  c ← liftE (stringToCard cardStr);
  h ← deref (hands g !! pid);
  throwIf (negb (existsb (sameCard c) h)) You_do_not_have_that_card;;
  (if decide (0 < length (currentTrick g))%nat
   then
     let leadSuit := leadSuit g in
     mustFollow ← _hasSuit pid leadSuit;
     throwIf (mustFollow && bool_decide (Some (suit c) ≠ leadSuit))
       You_must_follow_suit;;
     if negb mustFollow
     then
       mustTrump ← (match trumpSuit g with
                    | Some t => _hasSuit pid (Some t)
                    | None => mret false
                    end);
       throwIf (mustTrump && bool_decide (Some (suit c) ≠ trumpSuit g))
         You_must_play_trump
     else skip
   else skip);;
  played ← _removeCardFromHand pid c;
  modify (λ g, if decide (length (currentTrick g) = 0)%nat
               then set_leadSuit g (Some (suit played)) else g);;
  modify (λ g, set_currentTrick g (currentTrick g ++ [mkEntry pid played]));;
  g1 ← get;
  if decide (length (currentTrick g1) < numPlayers g1)%nat
  then
    modify (λ g, set_playTurnIndex g
      (Some (rem (add (default (Num 0) (playTurnIndex g)) (Num 1))
                 (numPlayersN g))));;
    mret (mkPlayResult false None)
  else
    best ← deref (trickWinnerOf (currentTrick g1) (leadSuit g1) (trumpSuit g1));
    let winner := best.1 in
    modify (λ g, set_tricksWon g
      (<[winner := add (ofProp (tricksWon g !! winner)) (Num 1)]> (tricksWon g)));;
    handOver ← everyHandEmpty (playerIds g1);
    (if handOver : bool
     then
       _scoreHand;;
       modify (λ g,
         let isLast :=
           bool_decide (handIndex g >= Z.of_nat (length (schedule g)) - 1) in
         set_phase g (if isLast then game_end else hand_end))
     else
       modify (λ g, set_pendingPlayTurnIndex (set_phase g trick_pause)
                      (Some (Num (indexOf (playerIds g) winner)))));;
    mret (mkPlayResult true (Some winner)).

Definition nextHand (rnd : nat → nat) : M unit :=
  g ← get;
  throwIf (bool_decide (phase g ≠ hand_end)) Cannot_start_next_hand_now;;
  modify (λ g, set_handIndex g (handIndex g + 1));;
  modify (λ g, set_dealerIndex g
                 (rem (add (dealerIndex g) (Num 1)) (numPlayersN g)));;
  startHand rnd.

Definition resumeAfterTrick : M unit :=
  g ← get;
  throwIf (bool_decide (phase g ≠ trick_pause)) Cannot_resume_trick_now;;
  modify (λ g, set_currentTrick g []);;
  modify (λ g, set_leadSuit g None);;
  modify (λ g, set_playTurnIndex g
    (match pendingPlayTurnIndex g with
     | Some i => Some i
     | None => playTurnIndex g
     end));;
  modify (λ g, set_pendingPlayTurnIndex g None);;
  modify (λ g, set_phase g playing).

(** [if (has(m, oldId)) { m[newId] = m[oldId]; delete m[oldId]; }] *)
Definition rekey {V} (oldId newId : string) (m : gmap string V) : gmap string V :=
  match m !! oldId with
  | Some v => delete oldId (<[newId := v]> m)
  | None => m
  end.

Definition rekeyEntry (oldId newId : string) (t : TrickEntry) : TrickEntry :=
  if decide (pid t = oldId) then mkEntry newId (card t) else t.

(** [replacePlayerId] has no [throw] and dereferences nothing that can be
    [undefined]: it is a total state transformer. *)
Definition replacePlayerId (oldId newId : string) (g : WhistGame) : WhistGame :=
  if decide (oldId = newId) then g
  else
    let idx := indexOf (playerIds g) oldId in
    if decide (idx = -1) then g
    else
      let g := set_playerIds g (<[Z.to_nat idx := newId]> (playerIds g)) in
      let g := set_hands g (rekey oldId newId (hands g)) in
      let g := set_bids g (rekey oldId newId (bids g)) in
      let g := set_tricksWon g (rekey oldId newId (tricksWon g)) in
      let g := set_totalScores g (rekey oldId newId (totalScores g)) in
      let g := set_streaks g (rekey oldId newId (streaks g)) in
      if decide (length (currentTrick g) ≠ 0)%nat
      then set_currentTrick g (rekeyEntry oldId newId <$> currentTrick g)
      else g.

(** The constructor. *)
Definition newGame (ids : list string) (dealer : jsnum) : WhistGame :=
  fst (_resetForNextHand
    (mkGame ids dealer (buildSchedule (length ids)) 0
       (resetMap (Num 0) ids) (resetMap (mkStreak None 0) ids)
       waiting None ∅ ∅ ∅ [] None None (Num 0) None)).

(** ** The room layer (server.ts) *)

Definition HIDDEN : string := "HIDDEN".

(** What [buildHandsViewFor] stores for seat [pid] whose hand is [h]. *)
Definition handView (g : WhistGame) (viewerId pid : string) (h : list Card)
  : list string :=
  let real := cardToString <$> h in
  if decide (pid = viewerId)
  then
    if decide (phase g = choose_trump ∧ currentHandSize g = 8
               ∧ Some pid = getCurrentBidder g)
    then imap (λ idx c, if decide (idx < 5)%nat then c else HIDDEN) real
    else real
  else (λ _, HIDDEN) <$> real.

Fixpoint handsViewLoop (g : WhistGame) (viewerId : string) (ps : list string)
    (acc : gmap string (list string)) : Error + gmap string (list string) :=
  match ps with
  | [] => inr acc
  | p :: ps' =>
      match hands g !! p with
      | None => inl TypeError
      | Some h =>
          handsViewLoop g viewerId ps' (<[p := handView g viewerId p h]> acc)
      end
  end.

(** [room.game] is [null] before a match starts. *)
Definition buildHandsViewFor (game : option WhistGame) (viewerId : string)
  : Error + gmap string (list string) :=
  match game with
  | None => inr ∅
  | Some g => handsViewLoop g viewerId (playerIds g) ∅
  end.

(** The card chosen by the automated player in the playing branch of
    [maybeBotAct]; [None] is a falsy [choice]. *)
Definition botChoice (g : WhistGame) (h : list Card) : option Card :=
  if decide (length (currentTrick g) = 0)%nat then h !! 0%nat
  else
    let sameSuit := filter (λ c, Some (suit c) = leadSuit g) h in
    if decide (length sameSuit ≠ 0)%nat then sameSuit !! 0%nat else h !! 0%nat.

(** The body of the timer callback of the playing branch, inside its [try].
    The surrounding [catch] discards the error; the state is the one this
    computation leaves. *)
Definition botPlay (pid : string) : M (option PlayResult) :=
  g ← get;
  h ← deref (hands g !! pid);
  match botChoice g h with
  | None => mret None
  | Some c => r ← playCard pid (cardToString c); mret (Some r)
  end.

(** ** The legality rule of the rule book, as a predicate

    A play is legal if the card is in the acting seat's hand and the trick is
    empty, or the card follows the lead suit, or the seat holds no card of
    the lead suit and either the card is a trump or the seat holds no
    trump. *)
Definition holdsSuit (h : list Card) (su : option Suit) : Prop :=
  ∃ c, c ∈ h ∧ Some (suit c) = su.

Definition legalPlay (g : WhistGame) (h : list Card) (c : Card) : Prop :=
  c ∈ h ∧
  (currentTrick g = []
   ∨ Some (suit c) = leadSuit g
   ∨ (¬ holdsSuit h (leadSuit g)
      ∧ (Some (suit c) = trumpSuit g ∨ ¬ holdsSuit h (trumpSuit g)))).


(** ** Vocabulary of the properties *)

(** [a] beats [b] in a trick led in [lead] with trump [trump]. *)
Definition beats (lead trump : option Suit) (a b : Card) : Prop :=
  compareCards a b lead trump = 1.

(** Trumps rank above lead-suit cards, which rank above the rest. *)
Definition tier (lead trump : option Suit) (c : Card) : Z :=
  if decide (Some (suit c) = trump) then 2
  else if decide (Some (suit c) = lead) then 1 else 0.

Inductive ErrorKind :=
  | phase_violation
  | turn_violation
  | input_violation
  | configuration_violation
  | runtime_fault.

Definition kindOf (e : Error) : ErrorKind :=
  match e with
  | Not_in_bidding_phase | Not_in_choose_trump_phase | Not_in_playing_phase
  | Cannot_start_next_hand_now | Cannot_resume_trick_now => phase_violation
  | Not_your_turn_to_bid | Not_your_turn_to_choose_trump | Not_your_turn =>
      turn_violation
  | Invalid_suit | Invalid_rank | Bid_must_be_an_integer | Dealer_cannot_bid
  | Invalid_trump_suit | You_do_not_have_that_card | You_must_follow_suit
  | You_must_play_trump | Card_not_in_hand => input_violation
  | Deck_size_mismatch => configuration_violation
  | TypeError => runtime_fault
  end.

(** The rejections of the action protocol. *)
Definition rejection (e : Error) : Prop :=
  kindOf e = phase_violation ∨ kindOf e = turn_violation
  ∨ kindOf e = input_violation.

(** [m] never writes: the state it leaves is the one it found. *)
Definition quiet {A} (m : M A) : Prop :=
  ∀ g g' r, m g = (g', r) → g' = g.

(** A rejection thrown by [m] leaves the state as [m] found it. *)
Definition atomic {A} (m : M A) : Prop :=
  ∀ g g' e, m g = (g', Throw e) → rejection e → g' = g.

(** [m] throws no rejection at all. *)
Definition unrejecting {A} (m : M A) : Prop :=
  ∀ g g' e, m g = (g', Throw e) → ¬ rejection e.

(** The actions of the session API. *)
Inductive Action :=
  | PlaceBid (pid : string) (bid : jsnum)
  | ChooseTrump (pid suitStr : string)
  | PlayCard (pid cardStr : string)
  | NextHand (rnd : nat → nat)
  | ResumeAfterTrick.

(** The state an action leaves, and the error it threw if it was rejected. *)
Definition perform (a : Action) (g : WhistGame) : WhistGame * option Error :=
  let out {A} (r : WhistGame * Result A) : WhistGame * option Error :=
    (r.1, match r.2 with Ok _ => None | Throw e => Some e end) in
  match a with
  | PlaceBid pid bid => out (placeBid pid bid g)
  | ChooseTrump pid suitStr => out (chooseTrump pid suitStr g)
  | PlayCard pid cardStr => out (playCard pid cardStr g)
  | NextHand rnd => out (nextHand rnd g)
  | ResumeAfterTrick => out (resumeAfterTrick g)
  end.

(** ** A sample match

    Three seats; the oracle makes the first (one-card) hand deal 9S to [b],
    10D to [c] and JC to [a], with a heart as top card of the deck. *)
Definition sampleRnd (i : nat) : nat :=
  match i with
  | 23 => 0 | 22 => 13 | 21 => 20 | 6 => 0
  | _ => i
  end%nat.

Definition run {A} (m : M A) (g : WhistGame) : WhistGame := (m g).1.

Definition sampleDealt : WhistGame :=
  run (startHand sampleRnd) (newGame ["a"; "b"; "c"] (Num 0)).

Definition sampleBid : WhistGame :=
  run (placeBid "a" (Num 0))
    (run (placeBid "c" (Num 0)) (run (placeBid "b" (Num 0)) sampleDealt)).

Definition sampleLastPlay : WhistGame :=
  run (playCard "c" "10D") (run (playCard "b" "9S") sampleBid).

Definition sampleTrick : WhistGame := run (playCard "a" "JC") sampleLastPlay.

(** ** A scripted match

    A list of actions played in order; [runScript] stops at the first
    rejection, [playAll] is the state the actions lead to. *)
Fixpoint runScript (acts : list Action) (g : WhistGame) : option WhistGame :=
  match acts with
  | [] => Some g
  | a :: rest =>
      match perform a g with
      | (g', None) => runScript rest g'
      | (_, Some _) => None
      end
  end.

Definition playAll (acts : list Action) (g : WhistGame) : WhistGame :=
  foldl (λ g a, (perform a g).1) g acts.

(** The oracle that leaves the deck in the order it was built. *)
Definition idRnd (i : nat) : nat := i.

Definition matchStart : WhistGame :=
  run (startHand idRnd) (newGame ["a"; "b"; "c"] (Num 0)).

(** The three one-card hands that open a match of three seats. *)
Definition threeOneCardHands : list Action :=
  [ PlaceBid "b" (Num 1); PlaceBid "c" (Num 0); PlaceBid "a" (Num 1);
    PlayCard "b" "AC"; PlayCard "c" "KC"; PlayCard "a" "QC";
    NextHand idRnd;
    PlaceBid "c" (Num 0); PlaceBid "a" (Num 0); PlaceBid "b" (Num 0);
    PlayCard "c" "AC"; PlayCard "a" "KC"; PlayCard "b" "QC";
    NextHand idRnd;
    PlaceBid "a" (Num 1); PlaceBid "b" (Num 0); PlaceBid "c" (Num 1);
    PlayCard "a" "AC"; PlayCard "b" "KC"; PlayCard "c" "QC" ].

(** The oracle of the fifth deal: the three top spades go to [b]. *)
Definition fifthRnd (i : nat) : nat :=
  match i with 21 => 5 | 18 => 4 | 15 => 3 | _ => i end%nat.

(** On to the two-card hand and through the three-card hand, the fifth of
    the match, up to its last play: [b], with four exact bids behind it, has
    bid 3 and holds two tricks and the lead of the third. *)
Definition toFifthHandLastPlay : list Action :=
  threeOneCardHands ++
  [ NextHand idRnd;
    PlaceBid "b" (Num 1); PlaceBid "c" (Num 1); PlaceBid "a" (Num 1);
    PlayCard "b" "AC"; PlayCard "c" "10C"; PlayCard "a" "9C";
    ResumeAfterTrick;
    PlayCard "b" "JC"; PlayCard "c" "KC"; PlayCard "a" "QC";
    NextHand fifthRnd;
    PlaceBid "c" (Num 0); PlaceBid "a" (Num 1); PlaceBid "b" (Num 3);
    PlayCard "c" "AC"; PlayCard "a" "KC"; PlayCard "b" "QS";
    ResumeAfterTrick;
    PlayCard "b" "KS"; PlayCard "c" "JC"; PlayCard "a" "10C";
    ResumeAfterTrick;
    PlayCard "b" "AS"; PlayCard "c" "AD" ].

Definition sampleFifthLastPlay : WhistGame := playAll toFifthHandLastPlay matchStart.

Definition sampleFifthDone : WhistGame :=
  run (playCard "a" "KD") sampleFifthLastPlay.

(** The state in which that last play calls [_scoreHand]: the card is on
    the table and the trick is counted for [b]. *)
Definition sampleFifthHand : WhistGame :=
  set_tricksWon
    (set_currentTrick
       (set_hands sampleFifthLastPlay (<["a" := []]> (hands sampleFifthLastPlay)))
       (currentTrick sampleFifthLastPlay ++ [mkEntry "a" (mkCard D_ 13)]))
    (<["b" := Num 3]> (tricksWon sampleFifthLastPlay)).

(** The oracle of a fourth deal with a heart on top of the deck, 10D and JC
    for [b], 9C and JH for [c]. *)
Definition botRnd (i : nat) : nat :=
  match i with 23 => 13 | 22 => 18 | 19 => 8 | 6 => 0 | _ => i end%nat.

(** The two-card hand in which [b] leads 10D and the turn comes to [c],
    taken to be an automated seat. *)
Definition toBotTurn : list Action :=
  threeOneCardHands ++
  [ NextHand botRnd;
    PlaceBid "b" (Num 0); PlaceBid "c" (Num 1); PlaceBid "a" (Num 0);
    PlayCard "b" "10D" ].

(** The state that script leads to (see [toBotTurn_accepted]). *)
Definition sampleBotTurn : WhistGame :=
  mkGame ["a"; "b"; "c"] (Num 0) (buildSchedule 3) 3
    (<["a" := Num 10]> (<["b" := Num 16]> (<["c" := Num 3]> ∅)))
    (<["a" := mkStreak (Some Plus) 2]>
       (<["b" := mkStreak (Some Plus) 3]> (<["c" := mkStreak (Some Minus) 2]> ∅)))
    playing (Some H_)
    (<["a" := [mkCard C_ 12; mkCard C_ 13]]>
       (<["b" := [mkCard C_ 11]]>
          (<["c" := [mkCard C_ 9; mkCard H_ 11]]> ∅)))
    (<["a" := Some 0]> (<["b" := Some 0]> (<["c" := Some 1]> ∅)))
    (<["a" := Num 0]> (<["b" := Num 0]> (<["c" := Num 0]> ∅)))
    [mkEntry "b" (mkCard D_ 10)]
    (Some D_) None (Num 1) (Some (Num 2)).

(** A strict total order on the cards of a list. *)
Definition strictTotalOrderOn (lead trump : option Suit) (cards : list Card)
  : Prop :=
  (∀ a, a ∈ cards → ¬ beats lead trump a a)
  ∧ (∀ a b c, a ∈ cards → b ∈ cards → c ∈ cards →
       beats lead trump a b → beats lead trump b c → beats lead trump a c)
  ∧ (∀ a b, a ∈ cards → b ∈ cards → a ≠ b →
       beats lead trump a b ∨ beats lead trump b a).

(** The lead suit on record is the suit of the first card of the trick. *)
Definition leadOfFirst (trick : list TrickEntry) (lead : option Suit) : Prop :=
  match trick with
  | e :: _ => lead = Some (suit (card e))
  | [] => True
  end.

(** ** The dealer hook, in the words of the rule book *)

Definition Zsum (l : list Z) : Z := foldr Z.add 0 l.

(** The bid a seat has on record, counted as 0 while it has none. *)
Definition seatBid (g : WhistGame) (p : string) : Z :=
  match bids g !! p with Some (Some b) => b | _ => 0 end.

(** The identities at the seats other than the dealer's seat. *)
Definition nonDealerSeats (g : WhistGame) : list string :=
  match dealerIndex g with
  | Num d => if decide (0 <= d) then delete (Z.to_nat d) (playerIds g)
             else playerIds g
  | NaN => playerIds g
  end.

Definition sumNonDealerBids (g : WhistGame) : Z :=
  Zsum (seatBid g <$> nonDealerSeats g).

Definition sampleDealerTurn : WhistGame :=
  run (placeBid "c" (Num 0)) (run (placeBid "b" (Num 0)) sampleDealt).

(** ** Re-keying, as a relation between a dictionary and its successor *)

(** [m'] is [m] with the entry of [oldId] moved to [newId]: nothing is left
    under [oldId], the value that was there is now under [newId], and every
    other key reads as before. *)
Definition rekeyed {V} (oldId newId : string) (m m' : gmap string V) : Prop :=
  m' !! oldId = None
  ∧ (∀ v, m !! oldId = Some v → m' !! newId = Some v)
  ∧ (m !! oldId = None → m' !! newId = m !! newId)
  ∧ (∀ k, k ≠ oldId → k ≠ newId → m' !! k = m !! k).

(** The fields of the session that are not keyed by identity. *)
Definition unkeyedFields (g : WhistGame) :=
  (dealerIndex g, schedule g, handIndex g, phase g, trumpSuit g, leadSuit g,
   pendingPlayTurnIndex g, bidTurnIndex g, playTurnIndex g).

Definition sampleRejoined : WhistGame := replacePlayerId "c" "c2" sampleLastPlay.

(** ** Scoring, in the words of the rule book *)

(** The score of one hand: 5 plus the tricks for an exact bid, else minus
    the distance between bid and tricks. *)
Definition baseDelta (bid won : Z) : Z :=
  if decide (bid = won) then 5 + won else - Z.abs (bid - won).

Definition outcomeOf (bid won : Z) : Outcome :=
  if decide (bid = won) then Plus else Minus.

(** A streak after one more hand, before the threshold is looked at. *)
Definition bump (st : Streak) (o : Outcome) : Streak :=
  if decide (type st = Some o) then mkStreak (Some o) (count st + 1)
  else mkStreak (Some o) 1.

(** The streak kept for the next hand: reset once the count reaches 5. *)
Definition streakNext (st : Streak) (o : Outcome) : Streak :=
  if decide (count (bump st o) = 5) then mkStreak None 0 else bump st o.

(** The flat bonus or penalty, applied when the count reaches 5. *)
Definition streakAdjust (st : Streak) (o : Outcome) : Z :=
  if decide (count (bump st o) = 5)
  then match o with Plus => 10 | Minus => -10 end
  else 0.

(** Seat [p] made its bid of [w] tricks in the hand that [g] is about to
    score. *)
Definition madeBid (p : string) (w : Z) (g : WhistGame) : Prop :=
  bids g !! p = Some (Some w) ∧ tricksWon g !! p = Some (Num w).

(** The score and streak of seat [p] in [g'] are those that scoring the
    hand of [g] produced: [g'] is the next hand of the same match. *)
Definition carriesFrom (p : string) (g g' : WhistGame) : Prop :=
  totalScores g' !! p = totalScores (run _scoreHand g) !! p
  ∧ streaks g' !! p = streaks (run _scoreHand g) !! p.

Definition scoreOf (p : string) (g : WhistGame) : option jsnum := totalScores g !! p.

Definition streakOf (p : string) (g : WhistGame) : option Streak := streaks g !! p.

(** Five hands in a row in which seat [a] bids 0 and takes no trick, from a
    fresh match. *)
Definition sampleRun1 : WhistGame :=
  set_bids (newGame ["a"; "b"; "c"] (Num 0))
    (<["a" := Some 0]> (<["b" := Some 1]> (<["c" := Some 1]> ∅))).
Definition sampleRun2 : WhistGame := run _scoreHand sampleRun1.
Definition sampleRun3 : WhistGame := run _scoreHand sampleRun2.
Definition sampleRun4 : WhistGame := run _scoreHand sampleRun3.
Definition sampleRun5 : WhistGame := run _scoreHand sampleRun4.

(** An eight-card hand waiting for seat [b] to choose the trump. *)
Definition sampleChoosing : WhistGame :=
  let h1 := [mkCard C_ 9; mkCard C_ 14; mkCard D_ 10; mkCard D_ 12;
             mkCard H_ 9; mkCard H_ 11; mkCard S_ 13; mkCard S_ 14] in
  let h2 := [mkCard C_ 10; mkCard C_ 11; mkCard D_ 9; mkCard D_ 14;
             mkCard H_ 10; mkCard H_ 13; mkCard S_ 9; mkCard S_ 12] in
  let h3 := [mkCard C_ 12; mkCard C_ 13; mkCard D_ 11; mkCard D_ 13;
             mkCard H_ 12; mkCard H_ 14; mkCard S_ 10; mkCard S_ 11] in
  set_hands (set_phase (set_bidTurnIndex (set_handIndex
    (newGame ["a"; "b"; "c"] (Num 0)) 9) (Num 1)) choose_trump)
    (<["a" := h3]> (<["b" := h1]> (<["c" := h2]> ∅))).

(** ** Reachable states and what holds in them *)

(** Every seat has a hand on record. *)
Definition handsOnRecord (g : WhistGame) : Prop :=
  ∀ p, p ∈ playerIds g → is_Some (hands g !! p).

(** Between hands every streak count is below the threshold. *)
Definition streaksBelowFive (g : WhistGame) : Prop :=
  ∀ p st, streaks g !! p = Some st → 0 <= count st <= 4.

Definition wellFormed (g : WhistGame) : Prop :=
  NoDup (playerIds g) ∧ handsOnRecord g ∧ streaksBelowFive g
  ∧ leadOfFirst (currentTrick g) (leadSuit g).

(** What the actions leave alone: the seats in order and the schedule; and
    the dealer index stays a natural number. *)
Definition tableOf (ps : list string) (s : list Z) (g : WhistGame) : Prop :=
  playerIds g = ps ∧ schedule g = s ∧ ∃ d, dealerIndex g = Num d ∧ 0 <= d.

(** The match is laid out for the seats at the table, and a hand is under
    way only at a table of one to six seats. *)
Definition seated (g : WhistGame) : Prop :=
  tableOf (playerIds g) (buildSchedule (numPlayers g)) g
  ∧ (phase g ≠ waiting → (1 <= numPlayers g <= 6)%nat).

(** The states a session goes through: constructed for distinct identities
    and a dealer index that is a natural number (the room layer passes 0),
    then driven by [startHand], the five actions (accepted or not) and
    reconnections under an identity not yet seated. *)
Inductive reachable : WhistGame → Prop :=
  | reachable_new ids (dealer : Z) :
      NoDup ids → 0 <= dealer → reachable (newGame ids (Num dealer))
  | reachable_startHand rnd g :
      reachable g → reachable (run (startHand rnd) g)
  | reachable_action a g :
      reachable g → reachable (perform a g).1
  | reachable_replace oldId newId g :
      reachable g → newId ∉ playerIds g →
      reachable (replacePlayerId oldId newId g).

(** [m] keeps [P], whether it returns or throws. *)
Definition preserves {A} (P : WhistGame → Prop) (m : M A) : Prop :=
  ∀ g g' r, P g → m g = (g', r) → P g'.

(** Whatever [m] throws is a rejection of the action protocol. *)
Definition rejecting {A} (m : M A) : Prop :=
  ∀ g g' e, m g = (g', Throw e) → rejection e.

(** From a state in [P], [m] throws nothing at all. *)
Definition faultless {A} (P : WhistGame → Prop) (m : M A) : Prop :=
  ∀ g g' e, P g → m g ≠ (g', Throw e).
(** * Properties *)

(** ** The order on the cards of a trick *)

Section TrickOrder.
Context (lead trump : option Suit).


Lemma compareCards_tier a b :
  compareCards a b lead trump =
    if decide (tier lead trump b < tier lead trump a) then 1
    else if decide (tier lead trump a < tier lead trump b) then -1
    else if decide (suit a ≠ suit b) then 0
    else if decide (rank a = rank b) then 0
    else if decide (rank b < rank a) then 1 else -1.
Proof.
  unfold compareCards, tier.
  destruct (decide (Some (suit a) = trump)) as [Hat | Hat],
           (decide (Some (suit b) = trump)) as [Hbt | Hbt],
           (decide (Some (suit a) = lead)) as [Hal | Hal],
           (decide (Some (suit b) = lead)) as [Hbl | Hbl];
    rewrite ?(bool_decide_eq_true_2 _ Hat), ?(bool_decide_eq_false_2 _ Hat),
      ?(bool_decide_eq_true_2 _ Hbt), ?(bool_decide_eq_false_2 _ Hbt),
      ?(bool_decide_eq_true_2 _ Hal), ?(bool_decide_eq_false_2 _ Hal),
      ?(bool_decide_eq_true_2 _ Hbl), ?(bool_decide_eq_false_2 _ Hbl);
    simpl; try reflexivity;
    repeat case_bool_decide; repeat case_decide; simpl;
    try reflexivity; try lia; congruence.
Qed.

Lemma tier_range c : 0 <= tier lead trump c <= 2.
Proof. unfold tier. repeat case_decide; lia. Qed.

Lemma tier_same_suit a b :
  tier lead trump a = tier lead trump b → 0 < tier lead trump a → suit a = suit b.
Proof. unfold tier. repeat case_decide; intros; try lia; congruence. Qed.

Lemma compareCards_opp a b :
  compareCards b a lead trump = - compareCards a b lead trump.
Proof.
  rewrite !compareCards_tier.
  repeat case_decide; try lia; congruence.
Qed.

Lemma beats_irrefl a : ¬ beats lead trump a a.
Proof.
  unfold beats. rewrite compareCards_tier.
  repeat case_decide; try lia; congruence.
Qed.

Lemma beats_trans a b c : beats lead trump a b → beats lead trump b c → beats lead trump a c.
Proof.
  unfold beats. rewrite !compareCards_tier.
  repeat case_decide; try lia; try congruence.
Qed.

Lemma beats_asym a b : beats lead trump a b → ¬ beats lead trump b a.
Proof. intros Hab Hba. exact (beats_irrefl a (beats_trans _ _ _ Hab Hba)). Qed.

Lemma compareCards_tie a b :
  compareCards a b lead trump = 0 ↔
    a = b ∨ (suit a ≠ suit b ∧ tier lead trump a = 0 ∧ tier lead trump b = 0).
Proof.
  rewrite compareCards_tier. split.
  - repeat case_decide; try lia; intros _.
    + right. split; [done|].
      pose proof (tier_range a). pose proof (tier_range b).
      destruct (decide (0 < tier lead trump a)) as [Hpos|]; [| lia].
      exfalso. apply H1. apply tier_same_suit; lia.
    + left. destruct a, b; simpl in *; congruence.
  - intros [-> | (Hs & Ha & Hb)]; repeat case_decide; try lia; congruence.
Qed.

Lemma beats_total_on a b :
  a ≠ b → suit a = suit b ∨ 0 < tier lead trump a ∨ 0 < tier lead trump b → beats lead trump a b ∨ beats lead trump b a.
Proof.
  intros Hne Hc. unfold beats.
  destruct (decide (compareCards a b lead trump = 0)) as [H0|H0].
  - apply compareCards_tie in H0 as [->|(? & ? & ?)]; [done |].
    destruct Hc as [? | ?]; [congruence | lia].
  - rewrite (compareCards_opp a b).
    revert H0. rewrite compareCards_tier. repeat case_decide; lia.
Qed.

(** The loop keeps a card that beats, or is, every card seen so far. *)
Lemma resolveTrick_spec rest w0 c0 :
  let r := resolveTrick rest lead trump w0 c0 in
  ((r = (w0, c0)) ∨ (∃ e, e ∈ rest ∧ r = (pid e, card e))) ∧
  (r.2 = c0 ∨ beats lead trump r.2 c0).
Proof.
  revert w0 c0. induction rest as [|e rest IH]; intros w0 c0; simpl.
  - split; [by left | by left].
  - case_decide as Hc.
    + destruct (IH (pid e) (card e)) as [[Heq | (e' & Hin & Heq)] Hb].
      * split; [right; exists e; split; [left | done] |].
        rewrite Heq in *. simpl in *. by right.
      * split; [right; exists e'; split; [by right | done] |].
        right. destruct Hb as [-> | Hb]; [done |].
        by eapply beats_trans.
    + destruct (IH w0 c0) as [[Heq | (e' & Hin & Heq)] Hb];
        (split; [| done]); [by left |].
      right. exists e'. split; [by right | done].
Qed.

End TrickOrder.

Section TrickWinner.
Context (lead trump : option Suit).

Lemma beats_tier a b : beats lead trump a b → tier lead trump b <= tier lead trump a.
Proof.
  unfold beats. rewrite compareCards_tier. repeat case_decide; lia.
Qed.

(** Once the best card is a trump or of the lead suit, the loop returns a
    card that beats every other card it has seen. *)
Lemma resolveTrick_max rest w0 c0 :
  0 < tier lead trump c0 →
  let r := resolveTrick rest lead trump w0 c0 in
  (r.2 = c0 ∨ beats lead trump r.2 c0) ∧
  ∀ x, x ∈ rest → card x = r.2 ∨ beats lead trump r.2 (card x).
Proof.
  revert w0 c0. induction rest as [|e rest IH]; intros w0 c0 Hpos; simpl.
  - split; [by left | intros x Hx; by apply elem_of_nil in Hx].
  - case_decide as Hc.
    + assert (0 < tier lead trump (card e)) as Hpos'.
      { pose proof (beats_tier _ _ Hc). lia. }
      destruct (IH (pid e) (card e) Hpos') as [Hb Hall].
      assert (beats lead trump (resolveTrick rest lead trump (pid e) (card e)).2 c0)
        as Hbc0.
      { destruct Hb as [-> | Hb]; [done | by eapply beats_trans]. }
      split; [by right |].
      intros x [-> | Hx]%elem_of_cons; [| by apply Hall].
      destruct Hb as [Hb | Hb]; [by left | by right].
    + destruct (IH w0 c0 Hpos) as [Hb Hall].
      split; [done |].
      intros x [-> | Hx]%elem_of_cons; [| by apply Hall].
      destruct (decide (card e = c0)) as [He | He].
      * rewrite He. destruct Hb as [Hb | Hb]; [by left | by right].
      * assert (beats lead trump c0 (card e)) as Hce.
        { destruct (beats_total_on lead trump (card e) c0 He) as [? | ?];
            [right; by right | done | done]. }
        right. destruct Hb as [-> | Hb]; [done | by eapply beats_trans].
Qed.

End TrickWinner.


(** ** How a computation treats the state *)

Section Effects.
Context {A : Type}.


Lemma quiet_atomic (m : M A) : quiet m → atomic m.
Proof. intros Hq g g' e Hm _. by eapply Hq. Qed.

Lemma unrejecting_atomic (m : M A) : unrejecting m → atomic m.
Proof. intros Hu g g' e Hm Hr. by destruct (Hu _ _ _ Hm). Qed.

Lemma quiet_ret (a : A) : quiet (mret a).
Proof. by intros g g' r [= <- _]. Qed.

Lemma quiet_throw e : quiet (throw e : M A).
Proof. by intros g g' r [= <- _]. Qed.

Lemma quiet_deref (o : option A) : quiet (deref o).
Proof. destruct o; [apply quiet_ret | apply quiet_throw]. Qed.

Lemma quiet_liftE (r : Error + A) : quiet (liftE r).
Proof. destruct r; [apply quiet_throw | apply quiet_ret]. Qed.

Lemma unrejecting_ret (a : A) : unrejecting (mret a).
Proof. by intros g g' e. Qed.

Lemma unrejecting_deref (o : option A) : unrejecting (deref o).
Proof.
  destruct o; [apply unrejecting_ret |].
  intros g g' e [= _ <-] [H | [H | H]]; discriminate H.
Qed.
End Effects.

Lemma quiet_get : quiet get.
Proof. by intros g g' r [= <- _]. Qed.

Lemma quiet_throwIf c e : quiet (throwIf c e).
Proof. destruct c; [apply quiet_throw | apply quiet_ret]. Qed.

Lemma unrejecting_modify f : unrejecting (modify f).
Proof. by intros g g' e. Qed.

Lemma unrejecting_skip : unrejecting skip.
Proof. by intros g g' e. Qed.

Section BindEffects.
Context {A B : Type} (m : M A) (f : A → M B).

Lemma bind_Throw g g' e :
  (m ≫= f) g = (g', Throw e) →
  m g = (g', Throw e) ∨ ∃ a g1, m g = (g1, Ok a) ∧ f a g1 = (g', Throw e).
Proof.
  unfold mbind, M_bind. destruct (m g) as [g1 [a | e1]]; intros H.
  - right. by exists a, g1.
  - left. by simplify_eq.
Qed.

Lemma bind_Ok g g' b :
  (m ≫= f) g = (g', Ok b) →
  ∃ a g1, m g = (g1, Ok a) ∧ f a g1 = (g', Ok b).
Proof.
  unfold mbind, M_bind. destruct (m g) as [g1 [a | e1]]; intros H.
  - by exists a, g1.
  - discriminate H.
Qed.

Lemma quiet_bind : quiet m → (∀ a, quiet (f a)) → quiet (m ≫= f).
Proof.
  intros Hm Hf g g' r. unfold mbind, M_bind.
  destruct (m g) as [g1 [a | e1]] eqn:E; intros H.
  - apply Hm in E as ->. by eapply Hf.
  - apply Hm in E as ->. by simplify_eq.
Qed.

Lemma atomic_quiet_bind : quiet m → (∀ a, atomic (f a)) → atomic (m ≫= f).
Proof.
  intros Hm Hf g g' e [H | (a & g1 & H1 & H2)]%bind_Throw Hr.
  - by eapply Hm.
  - apply Hm in H1 as ->. by eapply Hf.
Qed.

Lemma atomic_bind_unrejecting :
  atomic m → (∀ a, unrejecting (f a)) → atomic (m ≫= f).
Proof.
  intros Hm Hf g g' e [H | (a & g1 & H1 & H2)]%bind_Throw Hr.
  - by eapply Hm.
  - by destruct (Hf _ _ _ _ H2).
Qed.

Lemma unrejecting_bind :
  unrejecting m → (∀ a, unrejecting (f a)) → unrejecting (m ≫= f).
Proof.
  intros Hm Hf g g' e [H | (a & g1 & H1 & H2)]%bind_Throw.
  - by eapply Hm.
  - by eapply Hf.
Qed.
End BindEffects.

Lemma unrejecting_get : unrejecting get.
Proof. by intros g g' e. Qed.

Lemma unrejecting_throw {A} e : ¬ rejection e → unrejecting (throw e : M A).
Proof. by intros He g g' e' [= _ <-]. Qed.

Lemma unrejecting_throwIf c e : ¬ rejection e → unrejecting (throwIf c e).
Proof.
destruct c; [apply unrejecting_throw | intros _; apply unrejecting_skip].
Qed.

Lemma not_rejection_config : ¬ rejection Deck_size_mismatch.
Proof. intros [H | [H | H]]; discriminate H. Qed.

Create HintDb effects.

#[local] Hint Resolve quiet_get quiet_throwIf quiet_deref quiet_liftE quiet_ret
quiet_throw unrejecting_get unrejecting_modify unrejecting_skip
unrejecting_deref unrejecting_ret not_rejection_config : effects.

(** Walk down a chain of binds whose head never writes. *)
Ltac quiet_step :=
first [ apply atomic_quiet_bind; [solve [eauto with effects] | intros ?]
      | apply quiet_bind; [solve [eauto with effects] | intros ?] ].

Ltac unrejecting_step :=
first [ solve [eauto with effects]
      | apply unrejecting_bind; [| intros ?]
      | apply unrejecting_throwIf
      | case_match | case_decide ].

Lemma quiet__hasSuit pid su : quiet (_hasSuit pid su).
Proof.
destruct su; simpl; [| apply quiet_ret].
repeat quiet_step. apply quiet_ret.
Qed.

Lemma unrejecting_everyHandEmpty ps : unrejecting (everyHandEmpty ps).
Proof. induction ps; simpl; repeat unrejecting_step. Qed.

Lemma unrejecting_sortHands ps : unrejecting (sortHands ps).
Proof. induction ps; simpl; repeat unrejecting_step. Qed.

Lemma unrejecting_forM {A} xs (f : nat → A → M A) a :
(∀ x b, unrejecting (f x b)) → unrejecting (forM xs f a).
Proof.
intros Hf. revert a. induction xs; intros b; simpl; repeat unrejecting_step.
Qed.

Lemma unrejecting_dealOne startIndex p deck :
unrejecting (dealOne startIndex p deck).
Proof. unfold dealOne. repeat unrejecting_step. Qed.

Lemma unrejecting_startHand rnd : unrejecting (startHand rnd).
Proof.
unfold startHand, _resetForNextHand, _createBaseDeck, deal.
repeat unrejecting_step.
apply unrejecting_forM; intros. apply unrejecting_forM; intros.
apply unrejecting_dealOne.
apply unrejecting_sortHands.
Qed.

#[local] Hint Resolve unrejecting_everyHandEmpty unrejecting_startHand : effects.

Lemma atomic__removeCardFromHand pid c : atomic (_removeCardFromHand pid c).
Proof.
unfold _removeCardFromHand. repeat quiet_step.
case_match.
- apply unrejecting_atomic. repeat unrejecting_step.
- apply quiet_atomic, quiet_throw.
Qed.

Lemma atomic_placeBid pid bid : atomic (placeBid pid bid).
Proof.
unfold placeBid. repeat quiet_step.
destruct bid as [| b]; [apply quiet_atomic, quiet_throw |].
quiet_step.
apply atomic_quiet_bind; [case_match; eauto with effects | intros ?].
apply unrejecting_atomic. repeat unrejecting_step.
Qed.

Lemma atomic_chooseTrump pid su : atomic (chooseTrump pid su).
Proof.
unfold chooseTrump. repeat quiet_step.
case_match; [apply unrejecting_atomic | apply quiet_atomic];
  eauto with effects.
Qed.

Lemma quiet_legality g pid c :
quiet
  (if decide (0 < length (currentTrick g))%nat
   then
     let leadSuit := leadSuit g in
     mustFollow ← _hasSuit pid leadSuit;
     throwIf (mustFollow && bool_decide (Some (suit c) ≠ leadSuit))
       You_must_follow_suit;;
     if negb mustFollow
     then
       mustTrump ← (match trumpSuit g with
                    | Some t => _hasSuit pid (Some t)
                    | None => mret false
                    end);
       throwIf (mustTrump && bool_decide (Some (suit c) ≠ trumpSuit g))
         You_must_play_trump
     else skip
   else skip).
Proof.
case_decide; [| apply quiet_ret]. simpl.
apply quiet_bind; [apply quiet__hasSuit | intros mustFollow].
quiet_step. destruct mustFollow; simpl; [apply quiet_ret |].
apply quiet_bind; [| intros ?; apply quiet_throwIf].
destruct (trumpSuit g) as [t |];
  [apply (quiet__hasSuit pid (Some t)) | apply quiet_ret].
Qed.

Lemma atomic_playCard pid cardStr : atomic (playCard pid cardStr).
Proof.
unfold playCard. repeat quiet_step.
apply atomic_quiet_bind; [apply quiet_legality | intros _].
apply atomic_bind_unrejecting; [apply atomic__removeCardFromHand |].
intros played. unfold _scoreHand. repeat unrejecting_step.
Qed.

Lemma atomic_nextHand rnd : atomic (nextHand rnd).
Proof.
unfold nextHand. repeat quiet_step.
apply unrejecting_atomic. repeat unrejecting_step.
Qed.

Lemma atomic_resumeAfterTrick : atomic resumeAfterTrick.
Proof.
unfold resumeAfterTrick. repeat quiet_step.
apply unrejecting_atomic. repeat unrejecting_step.
Qed.

(** ** Inversion of successful runs *)

Lemma get_Ok g g' a : get g = (g', Ok a) → g' = g ∧ a = g.
Proof. by intros [= <- <-]. Qed.

Lemma modify_Ok f g g' a : modify f g = (g', Ok a) → g' = f g.
Proof. by intros [= <- _]. Qed.

Lemma ret_Ok {A} (x : A) g g' a : (mret x : M A) g = (g', Ok a) → g' = g ∧ a = x.
Proof. by intros [= <- <-]. Qed.

Lemma quiet_run {A} (m : M A) g g' r : quiet m → m g = (g', r) → g' = g.
Proof. intros Hq. apply Hq. Qed.

Lemma everyHandEmpty_quiet ps : quiet (everyHandEmpty ps).
Proof.
  induction ps; simpl; [apply quiet_ret |].
  repeat quiet_step. case_decide; [done | apply quiet_ret].
Qed.

Lemma scoreSeat_frame g p :
  let g' := scoreSeat g p in
  playerIds g' = playerIds g ∧ currentTrick g' = currentTrick g
  ∧ leadSuit g' = leadSuit g ∧ trumpSuit g' = trumpSuit g
  ∧ bids g' = bids g ∧ tricksWon g' = tricksWon g ∧ hands g' = hands g.
Proof. unfold scoreSeat. by case_decide. Qed.

Lemma foldl_scoreSeat_frame ps g :
  let g' := foldl scoreSeat g ps in
  playerIds g' = playerIds g ∧ currentTrick g' = currentTrick g
  ∧ leadSuit g' = leadSuit g ∧ trumpSuit g' = trumpSuit g
  ∧ bids g' = bids g ∧ tricksWon g' = tricksWon g ∧ hands g' = hands g.
Proof.
  revert g. induction ps as [| p ps IH]; intros g; simpl; [done |].
  destruct (IH (scoreSeat g p)) as (-> & -> & -> & -> & -> & -> & ->).
  apply scoreSeat_frame.
Qed.

Lemma _removeCardFromHand_Ok pid c g g' played :
  _removeCardFromHand pid c g = (g', Ok played) →
  ∃ h idx, hands g !! pid = Some h ∧ findIndex (sameCard c) h = Some idx
    ∧ h !! idx = Some played
    ∧ g' = set_hands g (<[pid := delete idx h]> (hands g)).
Proof.
  unfold _removeCardFromHand. intros H.
  apply bind_Ok in H as (g0 & g1 & [-> ->]%get_Ok & H).
  apply bind_Ok in H as (h & g1 & Hh & H).
  destruct (hands g !! pid) as [h' |] eqn:Eh; [| discriminate Hh].
  apply ret_Ok in Hh as [-> ->].
  destruct (findIndex (sameCard c) h') as [idx |] eqn:Ei; [| discriminate H].
  apply bind_Ok in H as (x & g1 & Hx & H).
  destruct (h' !! idx) as [x' |] eqn:Ex; [| discriminate Hx].
  apply ret_Ok in Hx as [-> ->].
  apply bind_Ok in H as ([] & g1 & ->%modify_Ok & [-> ->]%ret_Ok).
  by exists h', idx.
Qed.

Lemma playCard_Ok pid cardStr g g' r :
  playCard pid cardStr g = (g', Ok r) →
  ∃ played,
    let trick := currentTrick g ++ [mkEntry pid played] in
    let lead := if decide (length (currentTrick g) = 0)%nat
                then Some (suit played) else leadSuit g in
    currentTrick g' = trick ∧ leadSuit g' = lead ∧ trumpSuit g' = trumpSuit g
    ∧ if decide (length trick < numPlayers g)%nat
      then r = mkPlayResult false None
      else ∃ best, trickWinnerOf trick lead (trumpSuit g) = Some best
                   ∧ r = mkPlayResult true (Some best.1).
Proof.
  unfold playCard. intros H.
  apply bind_Ok in H as (g0 & g1 & [-> ->]%get_Ok & H).
  apply bind_Ok in H as ([] & g1 & ->%(quiet_run _ _ _ _ (quiet_throwIf _ _)) & H).
  apply bind_Ok in H as ([] & g1 & ->%(quiet_run _ _ _ _ (quiet_throwIf _ _)) & H).
  apply bind_Ok in H as (c & g1 & ->%(quiet_run _ _ _ _ (quiet_liftE _)) & H).
  apply bind_Ok in H as (h & g1 & ->%(quiet_run _ _ _ _ (quiet_deref _)) & H).
  apply bind_Ok in H as ([] & g1 & ->%(quiet_run _ _ _ _ (quiet_throwIf _ _)) & H).
  apply bind_Ok in H as ([] & g1 & ->%(quiet_run _ _ _ _ (quiet_legality _ _ _)) & H).
  apply bind_Ok in H as (played & g1 & Hrm & H).
  apply _removeCardFromHand_Ok in Hrm as (h' & idx & Hh & Hi & Hp & ->).
  exists played.
  apply bind_Ok in H as ([] & g1 & ->%modify_Ok & H).
  apply bind_Ok in H as ([] & g1 & ->%modify_Ok & H).
  apply bind_Ok in H as (g1' & g1 & [-> ->]%get_Ok & H).
  match type of H with ?F ?s = _ => remember s as g4 eqn:Hg4 end.
  assert (currentTrick g4 = currentTrick g ++ [mkEntry pid played]
          ∧ playerIds g4 = playerIds g ∧ trumpSuit g4 = trumpSuit g
          ∧ leadSuit g4 = if decide (length (currentTrick g) = 0)%nat
                          then Some (suit played) else leadSuit g)
    as (Ht4 & Hp4 & Htr4 & Hl4).
  { subst g4. simpl. repeat case_decide; simpl in *; try done; lia. }
  clear Hg4.
  assert (numPlayers g4 = numPlayers g) as Hn
    by (unfold numPlayers; by rewrite Hp4).
  rewrite Hn, Ht4 in H. cbv zeta.
  destruct (decide (length (currentTrick g ++ [mkEntry pid played])
                    < numPlayers g)%nat) as [Hlen | Hlen].
  - apply bind_Ok in H as ([] & g1 & ->%modify_Ok & [-> ->]%ret_Ok).
    simpl. by rewrite Ht4, Htr4, Hl4.
  - apply bind_Ok in H as (best & g1 & Hb & H).
    apply bind_Ok in H as ([] & g2 & ->%modify_Ok & H).
    apply bind_Ok in H as (handOver & g2' & He & H).
    pose proof (quiet_run _ _ _ _ (everyHandEmpty_quiet _) He) as ->.
    apply bind_Ok in H as ([] & g5 & Hfin & [Hg5 ->]%ret_Ok). subst g5.
    assert (g1 = g4 ∧ trickWinnerOf (currentTrick g ++ [mkEntry pid played])
                        (leadSuit g4) (trumpSuit g4) = Some best) as [-> Hbest].
    { destruct (trickWinnerOf _ _ _); [| discriminate Hb].
      by apply ret_Ok in Hb as [-> ->]. }
    assert (currentTrick g' = currentTrick g4 ∧ leadSuit g' = leadSuit g4
            ∧ trumpSuit g' = trumpSuit g4) as (-> & -> & ->).
    { destruct handOver.
      - apply bind_Ok in Hfin as ([] & g6 & ->%modify_Ok & ->%modify_Ok).
        simpl.
        match goal with
        | |- context [foldl scoreSeat ?x ?ps] =>
            by destruct (foldl_scoreSeat_frame ps x) as (_ & -> & -> & -> & _)
        end.
      - by apply modify_Ok in Hfin as ->. }
    rewrite Ht4, Htr4, Hl4. repeat split.
    exists best. split; [| done].
    by rewrite <-Htr4, <-Hl4.
Qed.

(** ** The winner of a trick *)

Lemma NoDup_fmap_inj_on {A B} (f : A → B) (l : list A) x y :
  NoDup (f <$> l) → x ∈ l → y ∈ l → f x = f y → x = y.
Proof.
  induction l as [| a l IH]; simpl; intros Hnd Hx Hy Hf.
  - by apply elem_of_nil in Hx.
  - apply NoDup_cons in Hnd as [Hna Hnd].
    apply elem_of_cons in Hx as [-> | Hx]; apply elem_of_cons in Hy as [-> | Hy].
    + done.
    + destruct Hna. rewrite Hf. by apply list_elem_of_fmap_2.
    + destruct Hna. rewrite <-Hf. by apply list_elem_of_fmap_2.
    + by apply IH.
Qed.

Lemma trickWinnerOf_greatest lead trump trick :
  NoDup (card <$> trick) → leadOfFirst trick lead → trick ≠ [] →
  ∃ w, w ∈ trick ∧ trickWinnerOf trick lead trump = Some (pid w, card w)
       ∧ ∀ x, x ∈ trick → x ≠ w → beats lead trump (card w) (card x).
Proof.
  intros Hnd Hlead Hne. destruct trick as [| e rest]; [done |]. simpl.
  assert (0 < tier lead trump (card e)) as Hpos.
  { unfold tier. simpl in Hlead. rewrite Hlead. repeat case_decide; (lia || done). }
  destruct (resolveTrick_max lead trump rest (pid e) (card e) Hpos) as [Hb Hall].
  destruct (resolveTrick_spec lead trump rest (pid e) (card e)) as [Hw _].
  set (r := resolveTrick rest lead trump (pid e) (card e)) in *.
  assert (∃ w, w ∈ e :: rest ∧ r = (pid w, card w)) as (w & Hin & Hr).
  { destruct Hw as [Hw | (e' & Hin & Hw)].
    - exists e. split; [left | done].
    - exists e'. split; [by right | done]. }
  exists w. split; [done |]. split; [by rewrite Hr |].
  rewrite Hr in Hb, Hall. simpl in Hb, Hall.
  intros x Hx Hxw.
  assert (card x ≠ card w) as Hc.
  { intros Heq. apply Hxw. by eapply (NoDup_fmap_inj_on card). }
  apply elem_of_cons in Hx as [-> | Hx].
  - destruct Hb as [Hb | Hb]; [by destruct Hc | done].
  - destruct (Hall x Hx) as [Hb' | Hb']; [by destruct Hc | done].
Qed.

(** C3 (as amended).  For every lead suit and trump suit the comparison of
    [compareCards] is a strict partial order on cards: irreflexive and
    transitive, with the two directions of a comparison opposite.  It is
    total on every pair of distinct cards that share a suit or of which one
    is a trump or of the lead suit, and two distinct cards are left unordered
    (compare as 0) exactly when they are of different suits and neither is a
    trump nor of the lead suit.  When a play fills the trick, the cards on
    the table being distinct and the lead suit on record being the suit of
    the first card, the declared winner holds the greatest card: it beats
    every other card of the trick. *)
Theorem trick_order_and_winner (lead trump : option Suit) :
  (∀ a, ¬ beats lead trump a a)
  ∧ (∀ a b c, beats lead trump a b → beats lead trump b c → beats lead trump a c)
  ∧ (∀ a b, compareCards b a lead trump = - compareCards a b lead trump)
  ∧ (∀ a b, a ≠ b →
       suit a = suit b ∨ 0 < tier lead trump a ∨ 0 < tier lead trump b →
       beats lead trump a b ∨ beats lead trump b a)
  ∧ (∀ a b, a ≠ b →
       (compareCards a b lead trump = 0
        ↔ suit a ≠ suit b ∧ tier lead trump a = 0 ∧ tier lead trump b = 0))
  ∧ (∀ p cardStr g g' r,
       playCard p cardStr g = (g', Ok r) →
       trickEnded r = true →
       leadSuit g' = lead → trumpSuit g' = trump →
       leadOfFirst (currentTrick g) (leadSuit g) →
       NoDup (card <$> currentTrick g') →
       ∃ w, w ∈ currentTrick g' ∧ trickWinner r = Some (pid w)
            ∧ ∀ x, x ∈ currentTrick g' → x ≠ w →
                   beats lead trump (card w) (card x)).
Proof.
  split; [apply beats_irrefl |]. split; [apply beats_trans |].
  split; [apply compareCards_opp |]. split; [apply beats_total_on |].
  split.
  - intros a b Hne. rewrite compareCards_tie.
    split; [intros [? | ?]; done | by right].
  - intros p cardStr g g' r Hrun Hend Hl Ht Hinv Hnd.
    apply playCard_Ok in Hrun as (played & Htrick & Hlead & Htrump & Hres).
    cbv zeta in *. case_decide as Hlen; [by subst r |].
    destruct Hres as (best & Hbest & ->).
    rewrite Htrick in Hnd |- *.
    rewrite <-Hlead, Hl, <-Htrump, Ht in Hbest.
    destruct (trickWinnerOf_greatest lead trump _ Hnd) as (w & Hw & Hwin & Hmax).
    + rewrite <-Hl, Hlead. destruct (currentTrick g) as [| e0 t]; [done |].
      by case_decide.
    + by destruct (currentTrick g).
    + exists w. split; [done |]. split; [| done].
      rewrite Hbest in Hwin. by simplify_eq.
Qed.

(** C3, the claim as worded: in the trick of the sample match (9S led, hearts
    trump, then 10D and JC) the cards are distinct, yet the comparison is not
    a strict total order on them: 10D and JC are unordered. *)
Lemma trick_order_not_total :
  let cards := card <$> currentTrick sampleTrick in
  NoDup cards
  ∧ ¬ strictTotalOrderOn (leadSuit sampleTrick) (trumpSuit sampleTrick) cards.
Proof.
  split.
  - apply (bool_decide_unpack _). vm_compute. exact I.
  - intros (_ & _ & Htot).
    destruct (Htot (mkCard D_ 10) (mkCard C_ 11)) as [H | H];
      [apply (bool_decide_unpack _); vm_compute; exact I
      |apply (bool_decide_unpack _); vm_compute; exact I
      |discriminate | vm_compute in H; discriminate H
      | vm_compute in H; discriminate H].
Qed.

Lemma trick_order_and_winner_witness :
  playCard "a" "JC" sampleLastPlay
    = (sampleTrick, Ok (mkPlayResult true (Some "b")))
  ∧ ∃ w, w ∈ currentTrick sampleTrick ∧ Some "b" = Some (pid w)
         ∧ ∀ x, x ∈ currentTrick sampleTrick → x ≠ w →
                beats (Some S_) (Some H_) (card w) (card x).
Proof.
  split; [vm_compute; reflexivity |].
  apply (proj2 (proj2 (proj2 (proj2 (proj2
           (trick_order_and_winner (Some S_) (Some H_))))))
         "a" "JC" sampleLastPlay sampleTrick (mkPlayResult true (Some "b"))).
  - vm_compute; reflexivity.
  - reflexivity.
  - vm_compute; reflexivity.
  - vm_compute; reflexivity.
  - vm_compute; reflexivity.
  - apply (bool_decide_unpack _). vm_compute. exact I.
Defined.

(** ** Rejected actions *)

(** C1.  For every action of the session API (placeBid, chooseTrump,
    playCard, nextHand, resumeAfterTrick) and every session state, if the
    action is rejected with a phase, turn or input violation, the state
    after the call is the state before it, field for field. *)
Theorem rejected_action_leaves_state (a : Action) (g g' : WhistGame) (e : Error) :
  perform a g = (g', Some e) → rejection e → g' = g.
Proof.
  destruct a as [p b | p su | p cs | rnd |]; unfold perform; simpl.
  - destruct (placeBid p b g) as [g1 [x | e1]] eqn:E; intros [= <- <-].
    by apply (atomic_placeBid p b).
  - destruct (chooseTrump p su g) as [g1 [x | e1]] eqn:E; intros [= <- <-].
    by apply (atomic_chooseTrump p su).
  - destruct (playCard p cs g) as [g1 [x | e1]] eqn:E; intros [= <- <-].
    by apply (atomic_playCard p cs).
  - destruct (nextHand rnd g) as [g1 [x | e1]] eqn:E; intros [= <- <-].
    by apply (atomic_nextHand rnd).
  - destruct (resumeAfterTrick g) as [g1 [x | e1]] eqn:E; intros [= <- <-].
    by apply atomic_resumeAfterTrick.
Qed.

Lemma rejected_action_leaves_state_witness :
  (perform (PlayCard "c" "JC") sampleLastPlay).2 = Some Not_your_turn
  ∧ (perform (PlayCard "c" "JC") sampleLastPlay).1 = sampleLastPlay.
Proof.
  split; [vm_compute; reflexivity |].
  apply (rejected_action_leaves_state (PlayCard "c" "JC") sampleLastPlay _
           Not_your_turn).
  - vm_compute; reflexivity.
  - right; left; reflexivity.
Defined.

(** ** The dealer hook *)

Lemma _sumBidsSoFar_filter g ex :
  _sumBidsSoFar g ex = Zsum (seatBid g <$> filter (λ p, p ≠ ex) (playerIds g)).
Proof.
  unfold _sumBidsSoFar.
  assert (∀ l acc,
    foldl (λ sum p, if decide (p = ex) then sum
                    else match bids g !! p with
                         | Some (Some b) => sum + b
                         | _ => sum
                         end) acc l
    = acc + Zsum (seatBid g <$> filter (λ p, p ≠ ex) l)) as Hgen.
  { induction l as [| p l IH]; intros acc; simpl; [lia |].
    rewrite IH. rewrite filter_cons.
    case_decide as Hp.
    - subst p. by case_decide.
    - case_decide; [| done]. rewrite fmap_cons. simpl.
      set (rest := Zsum _). unfold seatBid.
      destruct (bids g !! p) as [[b |] |]; lia. }
  by rewrite Hgen.
Qed.

Lemma filter_ne_absent {A} `{EqDecision A} (l : list A) (x : A) :
  x ∉ l → filter (λ y, y ≠ x) l = l.
Proof.
  induction l as [| a l IH]; intros Hx; [done |].
  apply not_elem_of_cons in Hx as [Hne Hx].
  rewrite filter_cons. case_decide; [| done]. by rewrite IH.
Qed.

Lemma filter_ne_delete {A} `{EqDecision A} (l : list A) (d : nat) (x : A) :
  NoDup l → l !! d = Some x → filter (λ y, y ≠ x) l = delete d l.
Proof.
  revert d. induction l as [| a l IH]; intros d Hnd Hd; [done |].
  apply NoDup_cons in Hnd as [Hna Hnd]. rewrite filter_cons.
  destruct d as [| d]; simpl in *.
  - simplify_eq. case_decide; [done |]. by apply filter_ne_absent.
  - case_decide as Hax.
    + by rewrite (IH d).
    + destruct Hna. subst a. by eapply list_elem_of_lookup_2.
Qed.

Lemma _sumBidsSoFar_dealer g p :
  NoDup (playerIds g) → at_ (playerIds g) (dealerIndex g) = Some p →
  _sumBidsSoFar g p = sumNonDealerBids g.
Proof.
  intros Hnd Hd. rewrite _sumBidsSoFar_filter.
  unfold sumNonDealerBids, nonDealerSeats. unfold at_ in Hd.
  destruct (dealerIndex g) as [| d]; [done |].
  case_decide; [| done]. by rewrite (filter_ne_delete _ (Z.to_nat d) p).
Qed.

(** C2.  In the bidding phase, when the turn is at the dealer's seat and
    the seat's occupant submits an integer bid in [0, handSize] (the seat
    identities being distinct), [placeBid] rejects the bid if and only if it
    equals handSize minus the sum of the bids on record for the other seats;
    a rejected bid raises the dealer-hook error and leaves the state, hence
    the recorded bids, untouched, and an accepted bid is recorded. *)
Theorem dealer_hook (g : WhistGame) (p : string) (b : Z) :
  phase g = bidding →
  bidTurnIndex g = dealerIndex g →
  getCurrentBidder g = Some p →
  NoDup (playerIds g) →
  0 <= b <= currentHandSize g →
  let r := placeBid p (Num b) g in
  let forbidden := currentHandSize g - sumNonDealerBids g in
  ((∃ e, r.2 = Throw e) ↔ b = forbidden)
  ∧ (b = forbidden → r = (g, Throw Dealer_cannot_bid))
  ∧ (b ≠ forbidden → r.2 = Ok tt ∧ bids r.1 !! p = Some (Some b)).
Proof.
  intros Hph Hturn Hcur Hnd Hb r forbidden.
  assert (at_ (playerIds g) (dealerIndex g) = Some p) as Hdealer.
  { by rewrite <-Hturn. }
  pose proof (_sumBidsSoFar_dealer g p Hnd Hdealer) as Hsum.
  assert (b = forbidden → r = (g, Throw Dealer_cannot_bid)) as Hrej.
  { intros Heq. subst r forbidden. unfold placeBid, mbind, M_bind, get. simpl.
    rewrite Hph, Hcur, Hdealer, Hsum. simpl.
    rewrite (bool_decide_eq_false_2 (Some p ≠ Some p)) by (by intros ?).
    rewrite (bool_decide_eq_false_2 (b < 0)) by lia.
    rewrite (bool_decide_eq_false_2 (b > _)) by lia.
    rewrite (bool_decide_eq_true_2 (Some p = Some p)) by done.
    by rewrite (bool_decide_eq_true_2 (b = _)) by done. }
  assert (b ≠ forbidden → r.2 = Ok tt ∧ bids r.1 !! p = Some (Some b)) as Hacc.
  { intros Hne. subst r forbidden. unfold placeBid, mbind, M_bind, get. simpl.
    rewrite Hph, Hcur, Hdealer, Hsum. simpl.
    rewrite (bool_decide_eq_false_2 (Some p ≠ Some p)) by (by intros ?).
    rewrite (bool_decide_eq_false_2 (b < 0)) by lia.
    rewrite (bool_decide_eq_false_2 (b > _)) by lia.
    rewrite (bool_decide_eq_true_2 (Some p = Some p)) by done.
    rewrite (bool_decide_eq_false_2 (b = _)) by done. simpl.
    case_match; simpl; by rewrite lookup_insert_eq. }
  split; [| done]. split.
  - intros [e He]. destruct (decide (b = forbidden)) as [| Hne]; [done |].
    destruct (Hacc Hne) as [Hok _]. congruence.
  - intros Heq. exists Dealer_cannot_bid. by rewrite (Hrej Heq).
Qed.

Lemma dealer_hook_witness :
  sumNonDealerBids sampleDealerTurn = 0
  ∧ currentHandSize sampleDealerTurn = 1
  ∧ placeBid "a" (Num 1) sampleDealerTurn
    = (sampleDealerTurn, Throw Dealer_cannot_bid).
Proof.
  split; [vm_compute; reflexivity |]. split; [vm_compute; reflexivity |].
  apply (dealer_hook sampleDealerTurn "a" 1).
  - vm_compute; reflexivity.
  - vm_compute; reflexivity.
  - vm_compute; reflexivity.
  - apply (bool_decide_unpack _). vm_compute. exact I.
  - vm_compute. split; discriminate.
  - vm_compute; reflexivity.
Defined.

(** ** Reconnection: [replacePlayerId] *)

Lemma indexOfFrom_absent {A} `{EqDecision A} (x : A) l i :
  x ∉ l → indexOfFrom x l i = -1.
Proof.
  revert i. induction l as [| y l IH]; intros i Hx; simpl; [done |].
  apply not_elem_of_cons in Hx as [Hne Hx].
  case_decide; [congruence | by apply IH].
Qed.

Lemma indexOfFrom_present {A} `{EqDecision A} (x : A) l i :
  x ∈ l →
  ∃ n : nat, indexOfFrom x l i = i + Z.of_nat n ∧ l !! n = Some x
             ∧ x ∉ take n l.
Proof.
  revert i. induction l as [| y l IH]; intros i Hx; simpl.
  - by apply elem_of_nil in Hx.
  - case_decide as Hy.
    + exists 0%nat. subst y. split; [lia |]. split; [done |].
      simpl. apply not_elem_of_nil.
    + apply elem_of_cons in Hx as [-> | Hx]; [done |].
      destruct (IH (i + 1) Hx) as (n & Hi & Hn & Hfirst).
      exists (S n). split; [lia |]. split; [done |].
      simpl. apply not_elem_of_cons. split; [congruence | done].
Qed.

Lemma indexOf_absent {A} `{EqDecision A} (l : list A) x :
  indexOf l x = -1 ↔ x ∉ l.
Proof.
  unfold indexOf. split.
  - intros Hi Hx. destruct (indexOfFrom_present x l 0 Hx) as (n & Hn & _). lia.
  - apply indexOfFrom_absent.
Qed.

Lemma set_currentTrick_same g t : currentTrick g = t → set_currentTrick g t = g.
Proof. destruct g. simpl. by intros ->. Qed.

Lemma rekey_rekeyed {V} oldId newId (m : gmap string V) :
  oldId ≠ newId → rekeyed oldId newId m (rekey oldId newId m).
Proof.
  intros Hne. unfold rekeyed, rekey.
  destruct (m !! oldId) as [v |] eqn:E.
  - split; [apply lookup_delete_eq |]. split.
    + intros v' [= <-]. rewrite lookup_delete_ne by done.
      apply lookup_insert_eq.
    + split; [done |]. intros k Hk1 Hk2.
      rewrite lookup_delete_ne by done. by rewrite lookup_insert_ne.
  - done.
Qed.

Lemma NoDup_insert_absent {A} (l : list A) n x y :
  NoDup l → l !! n = Some x → x ∉ take n l → x ≠ y → x ∉ <[n := y]> l.
Proof.
  revert n. induction l as [| a l IH]; intros n Hnd Hn Hfirst Hxy; simpl.
  - by destruct n.
  - apply NoDup_cons in Hnd as [Hna Hnd]. destruct n as [| n]; simpl in *.
    + simplify_eq. apply not_elem_of_cons. done.
    + apply not_elem_of_cons in Hfirst as [Hxa Hfirst].
      apply not_elem_of_cons. split; [done | by apply IH].
Qed.

Lemma replacePlayerId_noop_eq g oldId : replacePlayerId oldId oldId g = g.
Proof. unfold replacePlayerId. by case_decide. Qed.

Lemma replacePlayerId_noop_absent g oldId newId :
  oldId ∉ playerIds g → replacePlayerId oldId newId g = g.
Proof.
  intros Habs. unfold replacePlayerId. case_decide; [done |].
  by rewrite (proj2 (indexOf_absent (playerIds g) oldId) Habs).
Qed.

(** The state after an effective re-keying, written out. *)
Lemma replacePlayerId_effect g oldId newId :
  oldId ∈ playerIds g → oldId ≠ newId →
  ∃ n : nat, playerIds g !! n = Some oldId ∧ (oldId ∉ take n (playerIds g))
    ∧ replacePlayerId oldId newId g =
      set_currentTrick (set_streaks (set_totalScores (set_tricksWon (set_bids
        (set_hands (set_playerIds g (<[n := newId]> (playerIds g)))
           (rekey oldId newId (hands g)))
        (rekey oldId newId (bids g))) (rekey oldId newId (tricksWon g)))
        (rekey oldId newId (totalScores g))) (rekey oldId newId (streaks g)))
        (rekeyEntry oldId newId <$> currentTrick g).
Proof.
  intros Hin Hne.
  destruct (indexOfFrom_present oldId (playerIds g) 0 Hin) as (n & Hi & Hn & Hfirst).
  exists n. split; [done |]. split; [done |].
  unfold replacePlayerId. case_decide; [done |].
  unfold indexOf. rewrite Hi. case_decide; [lia |].
  replace (Z.to_nat (0 + Z.of_nat n)) with n by lia.
  simpl. case_decide as Hlen; [done |].
  apply nil_length_inv in Hlen. symmetry. apply set_currentTrick_same.
  change (currentTrick g = rekeyEntry oldId newId <$> currentTrick g).
  by rewrite Hlen.
Qed.

(** C10.  For every session state, [replacePlayerId oldId newId] with an
    [oldId] that occupies no seat, or with [oldId] equal to [newId], returns
    the state unchanged; the method has no path that throws. *)
Theorem replacePlayerId_noop (g : WhistGame) (oldId newId : string) :
  oldId ∉ playerIds g ∨ oldId = newId → replacePlayerId oldId newId g = g.
Proof.
  intros [Habs | <-].
  - by apply replacePlayerId_noop_absent.
  - apply replacePlayerId_noop_eq.
Qed.

Lemma replacePlayerId_noop_witness :
  replacePlayerId "zed" "c2" sampleLastPlay = sampleLastPlay
  ∧ replacePlayerId "c" "c" sampleLastPlay = sampleLastPlay.
Proof.
  split.
  - apply replacePlayerId_noop. left.
    apply (bool_decide_unpack _). vm_compute. exact I.
  - apply replacePlayerId_noop. right. reflexivity.
Defined.

(** C5, the claim as worded: called with the new identity equal to the old
    one, [replacePlayerId] returns at once, and the seat, the hand, the bid,
    the counter, the score and the streak of [c] are all still keyed by
    [c]. *)
Lemma replacePlayerId_same_identity_stays_keyed :
  let g' := replacePlayerId "c" "c" sampleLastPlay in
  "c" ∈ playerIds sampleLastPlay
  ∧ "c" ∈ playerIds g'
  ∧ is_Some (hands g' !! "c") ∧ is_Some (bids g' !! "c")
  ∧ is_Some (tricksWon g' !! "c") ∧ is_Some (totalScores g' !! "c")
  ∧ is_Some (streaks g' !! "c").
Proof.
  cbv zeta. repeat split; apply (bool_decide_unpack _); vm_compute; exact I.
Qed.

(** C5 (as amended).  For every session state, every [oldId] occupying a
    seat and every [newId] different from it, [replacePlayerId oldId newId]
    puts [newId] in the seat [oldId] held and leaves the seat order
    otherwise as it was; moves the hand, the bid, the tricks-won counter,
    the cumulative score and the streak from key [oldId] to key [newId]
    with their values unchanged; renames [oldId] to [newId] in the entries
    of the current trick, cards and order kept; leaves every other field
    as it was; and, the seat identities being distinct, leaves nothing
    keyed by [oldId]: no seat, no dictionary entry, no trick entry. *)
Theorem replacePlayerId_rekeys (g : WhistGame) (oldId newId : string) :
  oldId ∈ playerIds g → oldId ≠ newId →
  let g' := replacePlayerId oldId newId g in
  (∃ i : nat, playerIds g !! i = Some oldId
              ∧ playerIds g' = <[i := newId]> (playerIds g))
  ∧ rekeyed oldId newId (hands g) (hands g')
  ∧ rekeyed oldId newId (bids g) (bids g')
  ∧ rekeyed oldId newId (tricksWon g) (tricksWon g')
  ∧ rekeyed oldId newId (totalScores g) (totalScores g')
  ∧ rekeyed oldId newId (streaks g) (streaks g')
  ∧ currentTrick g' = rekeyEntry oldId newId <$> currentTrick g
  ∧ (∀ t, t ∈ currentTrick g' → pid t ≠ oldId)
  ∧ unkeyedFields g' = unkeyedFields g
  ∧ (NoDup (playerIds g) → oldId ∉ playerIds g').
Proof.
  intros Hin Hne g'. subst g'.
  destruct (replacePlayerId_effect g oldId newId Hin Hne)
    as (n & Hn & Hfirst & ->).
  simpl. split; [by exists n |].
  repeat (split; [by apply rekey_rekeyed |]).
  split; [done |]. split.
  - intros t (t0 & -> & _)%list_elem_of_fmap.
    unfold rekeyEntry. case_decide; simpl; congruence.
  - split; [done |]. intros Hnd. by apply NoDup_insert_absent.
Qed.

Lemma replacePlayerId_rekeys_witness :
  hands sampleRejoined !! "c2" = hands sampleLastPlay !! "c"
  ∧ playerIds sampleRejoined = ["a"; "b"; "c2"]
  ∧ "c" ∉ playerIds sampleRejoined.
Proof.
  pose proof (replacePlayerId_rekeys sampleLastPlay "c" "c2") as H.
  destruct H as (_ & _ & _ & _ & _ & _ & _ & _ & _ & Habs).
  - apply (bool_decide_unpack _). vm_compute. exact I.
  - discriminate.
  - split; [vm_compute; reflexivity |]. split; [vm_compute; reflexivity |].
    apply Habs. apply (bool_decide_unpack _). vm_compute. exact I.
Defined.

(** ** Scoring a hand *)

Lemma scoreSeat_other g p q :
  q ≠ p →
  totalScores (scoreSeat g p) !! q = totalScores g !! q
  ∧ streaks (scoreSeat g p) !! q = streaks g !! q.
Proof.
  intros Hne. unfold scoreSeat.
  case_decide; simpl; by rewrite !lookup_insert_ne.
Qed.

Lemma foldl_scoreSeat_other ps g q :
  q ∉ ps →
  totalScores (foldl scoreSeat g ps) !! q = totalScores g !! q
  ∧ streaks (foldl scoreSeat g ps) !! q = streaks g !! q.
Proof.
  revert g. induction ps as [| p ps IH]; intros g Hq; simpl; [done |].
  apply not_elem_of_cons in Hq as [Hne Hq].
  destruct (IH (scoreSeat g p) Hq) as [-> ->]. by apply scoreSeat_other.
Qed.

(** With distinct seat identities the loop scores each seat once, from the
    state the hand ended in. *)
Lemma foldl_scoreSeat_at ps g p :
  NoDup ps → p ∈ ps →
  (∀ g0, bids g0 = bids g → tricksWon g0 = tricksWon g →
         totalScores g0 !! p = totalScores g !! p →
         streaks g0 !! p = streaks g !! p →
         totalScores (scoreSeat g0 p) !! p = totalScores (scoreSeat g p) !! p
         ∧ streaks (scoreSeat g0 p) !! p = streaks (scoreSeat g p) !! p) →
  totalScores (foldl scoreSeat g ps) !! p = totalScores (scoreSeat g p) !! p
  ∧ streaks (foldl scoreSeat g ps) !! p = streaks (scoreSeat g p) !! p.
Proof.
  intros Hnd Hin Hcongr.
  assert (∀ g0, bids g0 = bids g → tricksWon g0 = tricksWon g →
            totalScores g0 !! p = totalScores g !! p →
            streaks g0 !! p = streaks g !! p →
            totalScores (foldl scoreSeat g0 ps) !! p
              = totalScores (scoreSeat g p) !! p
            ∧ streaks (foldl scoreSeat g0 ps) !! p
              = streaks (scoreSeat g p) !! p) as Hgen; [| by apply Hgen].
  induction ps as [| q ps IH]; intros g0 Hb Ht Hs Hst; simpl.
  - by apply elem_of_nil in Hin.
  - apply NoDup_cons in Hnd as [Hq Hnd].
    destruct (scoreSeat_frame g0 q) as (_ & _ & _ & _ & Hb' & Ht' & _).
    apply elem_of_cons in Hin as [-> | Hin].
    + destruct (foldl_scoreSeat_other ps (scoreSeat g0 q) q Hq) as [-> ->].
      by apply Hcongr.
    + assert (p ≠ q) as Hpq by (intros ->; done).
      destruct (scoreSeat_other g0 q p Hpq) as [Hs' Hst'].
      apply IH; [done | done | congruence | congruence | congruence | congruence].
Qed.

Lemma scoreSeat_congr g g0 p :
  bids g0 = bids g → tricksWon g0 = tricksWon g →
  totalScores g0 !! p = totalScores g !! p →
  streaks g0 !! p = streaks g !! p →
  totalScores (scoreSeat g0 p) !! p = totalScores (scoreSeat g p) !! p
  ∧ streaks (scoreSeat g0 p) !! p = streaks (scoreSeat g p) !! p.
Proof.
  intros Hb Ht Hs Hst. unfold scoreSeat. rewrite Hb, Ht, Hs, Hst.
  case_decide; simpl; by rewrite !lookup_insert_eq.
Qed.

(** The loop body on the seat it scores. *)
Lemma scoreSeat_at g p b w sc st :
  bids g !! p = Some (Some b) → tricksWon g !! p = Some (Num w) →
  totalScores g !! p = Some (Num sc) → streaks g !! p = Some st →
  0 <= count st <= 4 →
  let o := outcomeOf b w in
  totalScores (scoreSeat g p) !! p
    = Some (Num (sc + baseDelta b w + streakAdjust st o))
  ∧ streaks (scoreSeat g p) !! p = Some (streakNext st o).
Proof.
  intros Hb Hw Hsc Hst Hc o. subst o.
  unfold scoreSeat, outcomeOf, baseDelta, streakAdjust, streakNext, bump.
  rewrite Hb, Hw, Hsc, Hst. destruct st as [ty c]. simpl in *.
  assert (∀ (o : Outcome) (base : Z),
    let st1 := if decide (ty = Some o) then mkStreak ty (c + 1)
               else mkStreak (Some o) 1 in
    let g' :=
      if decide (count st1 >= 5)
      then set_streaks (set_totalScores g
             (<[p := match o with
                     | Plus => add (Num base) (Num 10)
                     | Minus => sub (Num base) (Num 10)
                     end]> (totalScores g)))
             (<[p := mkStreak None 0]> (streaks g))
      else set_streaks (set_totalScores g (<[p := Num base]> (totalScores g)))
             (<[p := st1]> (streaks g)) in
    totalScores g' !! p
      = Some (Num (base + streakAdjust (mkStreak ty c) o))
    ∧ streaks g' !! p = Some (streakNext (mkStreak ty c) o)) as Hcore.
  { intros o base. unfold streakAdjust, streakNext, bump. simpl.
    destruct (decide (ty = Some o)) as [-> | Hty]; simpl.
    - destruct (decide (c + 1 = 5)) as [H5 | H5];
        destruct (decide (c + 1 >= 5)); try lia; simpl;
        rewrite !lookup_insert_eq;
        [by destruct o | split; [do 2 f_equal; lia | done]].
    - rewrite !lookup_insert_eq. split; [do 2 f_equal; lia | done]. }
  destruct (decide (b = w)) as [-> | Hbw].
  - rewrite bool_decide_eq_true_2 by done.
    destruct (Hcore Plus (sc + (5 + w))) as [H1 H2]. simpl in H1, H2.
    split; [exact H1 | exact H2].
  - rewrite bool_decide_eq_false_2 by done.
    destruct (Hcore Minus (sc - Z.abs (b - w))) as [H1 H2]. simpl in H1, H2.
    split; [| exact H2].
    etrans; [exact H1 | do 2 f_equal; lia].
Qed.

(** What [_scoreHand] does to one seat, against the rule book. *)
Lemma _scoreHand_seat g p b w sc st :
  NoDup (playerIds g) → p ∈ playerIds g →
  bids g !! p = Some (Some b) → tricksWon g !! p = Some (Num w) →
  scoreOf p g = Some (Num sc) → streakOf p g = Some st →
  0 <= count st <= 4 →
  let g' := run _scoreHand g in
  let o := outcomeOf b w in
  scoreOf p g' = Some (Num (sc + baseDelta b w + streakAdjust st o))
  ∧ streakOf p g' = Some (streakNext st o).
Proof.
  intros Hnd Hin Hb Hw Hsc Hst Hc g' o. subst g'.
  unfold run, _scoreHand, modify, scoreOf, streakOf in *. simpl.
  destruct (foldl_scoreSeat_at (playerIds g) g p Hnd Hin) as [-> ->].
  { intros g0. apply scoreSeat_congr. }
  by apply scoreSeat_at.
Qed.

(** The scripted matches run without a rejection. *)
Lemma toFifthHandLastPlay_accepted :
  runScript toFifthHandLastPlay matchStart = Some sampleFifthLastPlay.
Proof. vm_compute. reflexivity. Qed.

Lemma toBotTurn_accepted : runScript toBotTurn matchStart = Some sampleBotTurn.
Proof. vm_compute. reflexivity. Qed.

(** The last play of the fifth hand scores the state [sampleFifthHand]. *)
Lemma sampleFifthDone_scored :
  sampleFifthDone = set_phase (run _scoreHand sampleFifthHand) hand_end.
Proof. vm_compute. reflexivity. Qed.

(** C7, the claim as worded: in the three-card fifth hand of the scripted
    match seat [b] has bid 3 and wins its third trick with the last play,
    which completes the hand; its score goes from 22 to 40, not to
    22 + (5 + 3): the hand is its fifth exact bid in a row. *)
Lemma exact_bid_gain_not_always_5_plus_tricks :
  runScript toFifthHandLastPlay matchStart = Some sampleFifthLastPlay
  ∧ currentHandSize sampleFifthLastPlay = 3
  ∧ phase sampleFifthDone = hand_end
  ∧ madeBid "b" 3 sampleFifthDone
  ∧ scoreOf "b" sampleFifthLastPlay = Some (Num 22)
  ∧ scoreOf "b" sampleFifthDone = Some (Num 40)
  ∧ scoreOf "b" sampleFifthDone ≠ Some (Num (22 + (5 + 3))).
Proof.
  split; [vm_compute; reflexivity |]. split; [vm_compute; reflexivity |].
  split; [vm_compute; reflexivity |].
  split; [split; vm_compute; reflexivity |].
  split; [vm_compute; reflexivity |]. split; [vm_compute; reflexivity |].
  vm_compute. discriminate.
Qed.

(** C7 (as amended).  When a hand is scored, for each seat (the seat
    identities being distinct, and the seat's streak count being below 5 as
    it is between hands): the cumulative score changes by 5 + tricksWon if
    the bid equals the tricks won and by -|bid - tricksWon| otherwise, plus
    the flat streak adjustment, which is +10 or -10 when this hand brings the
    seat's streak to 5 and 0 otherwise.  So when the streak does not reach 5
    the score increases by exactly 5 + tricksWon, or decreases by exactly
    |bid - tricksWon|; a seat bidding 3 and winning 3 then gains 8. *)
Theorem hand_score_delta (g : WhistGame) (p : string) (b w sc : Z) (st : Streak) :
  NoDup (playerIds g) → p ∈ playerIds g →
  bids g !! p = Some (Some b) → tricksWon g !! p = Some (Num w) →
  scoreOf p g = Some (Num sc) → streakOf p g = Some st →
  0 <= count st <= 4 →
  let g' := run _scoreHand g in
  let reaches5 := count (bump st (outcomeOf b w)) = 5 in
  let adj := streakAdjust st (outcomeOf b w) in
  (b = w → scoreOf p g' = Some (Num (sc + (5 + w) + adj)))
  ∧ (b ≠ w → scoreOf p g' = Some (Num (sc - Z.abs (b - w) + adj)))
  ∧ (reaches5 → adj = if decide (b = w) then 10 else -10)
  ∧ (¬ reaches5 → adj = 0)
  ∧ (¬ reaches5 → b = w → scoreOf p g' = Some (Num (sc + (5 + w))))
  ∧ (¬ reaches5 → b ≠ w → scoreOf p g' = Some (Num (sc - Z.abs (b - w))))
  ∧ (¬ reaches5 → b = 3 → w = 3 → scoreOf p g' = Some (Num (sc + 8))).
Proof.
  intros Hnd Hin Hb Hw Hsc Hst Hc g' reaches5 adj.
  destruct (_scoreHand_seat g p b w sc st Hnd Hin Hb Hw Hsc Hst Hc) as [Hs _].
  fold g' in Hs. fold adj in Hs. unfold baseDelta in Hs.
  assert (reaches5 → adj = if decide (b = w) then 10 else -10) as Hr.
  { intros Hr. subst adj. unfold streakAdjust.
    rewrite decide_True by exact Hr. unfold outcomeOf.
    by destruct (decide (b = w)). }
  assert (¬ reaches5 → adj = 0) as Hn.
  { intros Hr'. subst adj. unfold streakAdjust.
    by rewrite decide_False by exact Hr'. }
  split; [| split; [| split; [exact Hr | split; [exact Hn | split; [| split]]]]].
  - intros ->. by rewrite decide_True in Hs.
  - intros Hne. rewrite decide_False in Hs by done. rewrite Hs.
    do 2 f_equal; lia.
  - intros Hr' ->. rewrite decide_True in Hs by done. rewrite Hs, (Hn Hr').
    do 2 f_equal; lia.
  - intros Hr' Hne. rewrite decide_False in Hs by done. rewrite Hs, (Hn Hr').
    do 2 f_equal; lia.
  - intros Hr' -> ->. rewrite decide_True in Hs by done. rewrite Hs, (Hn Hr').
    do 2 f_equal; lia.
Qed.

Lemma hand_score_delta_witness :
  scoreOf "b" (run _scoreHand sampleFifthHand) = Some (Num (22 + (5 + 3) + 10))
  ∧ scoreOf "a" (run _scoreHand sampleFifthHand) = Some (Num (9 - Z.abs (1 - 0))).
Proof.
  split.
  - apply (hand_score_delta sampleFifthHand "b" 3 3 22 (mkStreak (Some Plus) 4)).
    + apply (bool_decide_unpack _). vm_compute. exact I.
    + apply (bool_decide_unpack _). vm_compute. exact I.
    + vm_compute; reflexivity.
    + vm_compute; reflexivity.
    + vm_compute; reflexivity.
    + vm_compute; reflexivity.
    + vm_compute. split; discriminate.
    + reflexivity.
  - apply (hand_score_delta sampleFifthHand "a" 1 0 9 (mkStreak (Some Minus) 1)).
    + apply (bool_decide_unpack _). vm_compute. exact I.
    + apply (bool_decide_unpack _). vm_compute. exact I.
    + vm_compute; reflexivity.
    + vm_compute; reflexivity.
    + vm_compute; reflexivity.
    + vm_compute; reflexivity.
    + vm_compute. split; discriminate.
    + vm_compute. discriminate.
    + discriminate.
Defined.

(** ** Streaks *)

Lemma streakNext_range st o :
  0 <= count st <= 4 → 0 <= count (streakNext st o) <= 4.
Proof.
  intros Hc. unfold streakNext, bump.
  repeat case_decide; simpl in *; lia.
Qed.

(** One successful hand, carried over to the next. *)
Lemma made_bid_step p g g' w sc st :
  NoDup (playerIds g) → p ∈ playerIds g → madeBid p w g →
  scoreOf p g = Some (Num sc) → streakOf p g = Some st →
  0 <= count st <= 4 → carriesFrom p g g' →
  scoreOf p g' = Some (Num (sc + (5 + w) + streakAdjust st Plus))
  ∧ streakOf p g' = Some (streakNext st Plus)
  ∧ 0 <= count (streakNext st Plus) <= 4.
Proof.
  intros Hnd Hin [Hb Hw] Hsc Hst Hc [Hcs Hcst].
  destruct (_scoreHand_seat g p w w sc st Hnd Hin Hb Hw Hsc Hst Hc) as [Hs Ht].
  unfold outcomeOf, baseDelta in Hs, Ht.
  rewrite !(decide_True (P := w = w)) in Hs by done.
  rewrite (decide_True (P := w = w)) in Ht by done.
  unfold scoreOf, streakOf in *. rewrite Hcs, Hcst.
  split; [done |]. split; [done |]. by apply streakNext_range.
Qed.

Lemma five_successes_adjust st :
  0 <= count st <= 4 →
  let s1 := streakNext st Plus in
  let s2 := streakNext s1 Plus in
  let s3 := streakNext s2 Plus in
  let s4 := streakNext s3 Plus in
  streakAdjust st Plus + streakAdjust s1 Plus + streakAdjust s2 Plus
    + streakAdjust s3 Plus + streakAdjust s4 Plus = 10
  ∧ (type st ≠ Some Plus →
       streakAdjust st Plus + streakAdjust s1 Plus + streakAdjust s2 Plus
         + streakAdjust s3 Plus = 0
       ∧ s4 = mkStreak (Some Plus) 4
       ∧ streakNext s4 Plus = mkStreak None 0).
Proof.
  intros Hc. destruct st as [ty c]. simpl in Hc.
  assert (c = 0 ∨ c = 1 ∨ c = 2 ∨ c = 3 ∨ c = 4) as Hcases by lia.
  destruct ty as [[|] |];
    destruct Hcases as [-> | [-> | [-> | [-> | ->]]]];
    (split; [vm_compute; reflexivity | intros Hty; try done;
             repeat split; vm_compute; reflexivity]).
Qed.

(** C8.  For each seat (the seat identities being distinct, and the streak
    count being below 5 as it is between hands), scoring a hand updates the
    streak so: if the outcome of the hand matches the type of the streak the
    count goes up by one, otherwise the type becomes the outcome and the
    count 1; if the count thereby reaches 5, one flat +10 (success) or -10
    (failure) is added to the score and the streak is reset to none, 0;
    otherwise nothing is added.  Hence five successful hands in a row earn
    exactly one +10 on top of their hand scores, and from a streak that is
    not a success streak the +10 comes with the fifth hand, which leaves the
    streak at none, 0. *)
Theorem streak_rule (p : string) :
  (∀ g b w sc st,
     NoDup (playerIds g) → p ∈ playerIds g →
     bids g !! p = Some (Some b) → tricksWon g !! p = Some (Num w) →
     scoreOf p g = Some (Num sc) → streakOf p g = Some st →
     0 <= count st <= 4 →
     let g' := run _scoreHand g in
     let o := outcomeOf b w in
     let hand := if decide (b = w) then 5 + w else - Z.abs (b - w) in
     (type st = Some o → count st + 1 < 5 →
        streakOf p g' = Some (mkStreak (Some o) (count st + 1))
        ∧ scoreOf p g' = Some (Num (sc + hand)))
     ∧ (type st ≠ Some o →
        streakOf p g' = Some (mkStreak (Some o) 1)
        ∧ scoreOf p g' = Some (Num (sc + hand)))
     ∧ (type st = Some o → count st + 1 = 5 →
        streakOf p g' = Some (mkStreak None 0)
        ∧ scoreOf p g' =
            Some (Num (sc + hand + match o with Plus => 10 | Minus => -10 end)))
     ∧ ∃ st', streakOf p g' = Some st' ∧ 0 <= count st' <= 4)
  ∧ (∀ g1 g2 g3 g4 g5 w1 w2 w3 w4 w5 sc st,
     NoDup (playerIds g1) → NoDup (playerIds g2) → NoDup (playerIds g3) →
     NoDup (playerIds g4) → NoDup (playerIds g5) →
     p ∈ playerIds g1 → p ∈ playerIds g2 → p ∈ playerIds g3 →
     p ∈ playerIds g4 → p ∈ playerIds g5 →
     madeBid p w1 g1 → madeBid p w2 g2 → madeBid p w3 g3 →
     madeBid p w4 g4 → madeBid p w5 g5 →
     carriesFrom p g1 g2 → carriesFrom p g2 g3 →
     carriesFrom p g3 g4 → carriesFrom p g4 g5 →
     scoreOf p g1 = Some (Num sc) → streakOf p g1 = Some st →
     0 <= count st <= 4 →
     let hands := (5 + w1) + (5 + w2) + (5 + w3) + (5 + w4) + (5 + w5) in
     scoreOf p (run _scoreHand g5) = Some (Num (sc + hands + 10))
     ∧ (type st ≠ Some Plus →
        scoreOf p g5 = Some (Num (sc + (hands - (5 + w5))))
        ∧ streakOf p g5 = Some (mkStreak (Some Plus) 4)
        ∧ streakOf p (run _scoreHand g5) = Some (mkStreak None 0))).
Proof.
  split.
  - intros g b w sc st Hnd Hin Hb Hw Hsc Hst Hc g' o hand.
    destruct (_scoreHand_seat g p b w sc st Hnd Hin Hb Hw Hsc Hst Hc) as [Hs Ht].
    fold g' in Hs, Ht. fold o in Hs, Ht.
    unfold baseDelta in Hs. fold hand in Hs.
    rewrite Hs, Ht. unfold streakAdjust, streakNext, bump.
    split; [| split; [| split]].
    + intros Hty Hlt. rewrite !(decide_True (P := type st = Some o)) by done.
      simpl. rewrite !(decide_False (P := count st + 1 = 5)) by lia.
      split; [done | do 2 f_equal; lia].
    + intros Hty. rewrite !(decide_False (P := type st = Some o)) by done.
      simpl. split; [done | do 2 f_equal; lia].
    + intros Hty H5. rewrite !(decide_True (P := type st = Some o)) by done.
      simpl. by rewrite !(decide_True (P := count st + 1 = 5)) by done.
    + eexists. split; [reflexivity |].
      repeat case_decide; simpl in *; lia.
  - intros g1 g2 g3 g4 g5 w1 w2 w3 w4 w5 sc st
      Hn1 Hn2 Hn3 Hn4 Hn5 Hi1 Hi2 Hi3 Hi4 Hi5 Hm1 Hm2 Hm3 Hm4 Hm5
      Hc12 Hc23 Hc34 Hc45 Hsc Hst Hc hands.
    destruct (made_bid_step p g1 g2 w1 sc st Hn1 Hi1 Hm1 Hsc Hst Hc Hc12)
      as (Hs2 & Ht2 & Hr2).
    destruct (made_bid_step p g2 g3 w2 _ _ Hn2 Hi2 Hm2 Hs2 Ht2 Hr2 Hc23)
      as (Hs3 & Ht3 & Hr3).
    destruct (made_bid_step p g3 g4 w3 _ _ Hn3 Hi3 Hm3 Hs3 Ht3 Hr3 Hc34)
      as (Hs4 & Ht4 & Hr4).
    destruct (made_bid_step p g4 g5 w4 _ _ Hn4 Hi4 Hm4 Hs4 Ht4 Hr4 Hc45)
      as (Hs5 & Ht5 & Hr5).
    destruct (made_bid_step p g5 (run _scoreHand g5) w5 _ _ Hn5 Hi5 Hm5
                Hs5 Ht5 Hr5 (conj eq_refl eq_refl)) as (Hs6 & Ht6 & _).
    destruct (five_successes_adjust st Hc) as [Hsum Hfresh]. cbv zeta in *.
    split.
    + rewrite Hs6. do 2 f_equal. subst hands. lia.
    + intros Hty. destruct (Hfresh Hty) as (Hz & H4 & H5).
      split; [| split].
      * rewrite Hs5. do 2 f_equal. subst hands. lia.
      * by rewrite Ht5, H4.
      * by rewrite Ht6, H4, <-H5, H4.
Qed.

Ltac by_eval :=
  first [ vm_compute; reflexivity
        | apply (bool_decide_unpack _); vm_compute; exact I
        | split; vm_compute; first [reflexivity | discriminate]
        | split; [| split]; vm_compute; reflexivity ].

Lemma streak_rule_witness :
  (streakOf "b" (run _scoreHand sampleFifthHand) = Some (mkStreak None 0)
   ∧ scoreOf "b" (run _scoreHand sampleFifthHand) = Some (Num (22 + (5 + 3) + 10)))
  ∧ scoreOf "a" (run _scoreHand sampleRun5) = Some (Num (0 + 25 + 10)).
Proof.
  split.
  - apply (proj1 (streak_rule "b") sampleFifthHand 3 3 22
             (mkStreak (Some Plus) 4)); by_eval.
  - apply (proj2 (streak_rule "a") sampleRun1 sampleRun2 sampleRun3 sampleRun4
             sampleRun5 0 0 0 0 0 0 (mkStreak None 0)); by_eval.
Defined.

(** ** The base deck *)

Lemma _createBaseDeck_run g :
  let n := Z.of_nat (numPlayers g) in
  _createBaseDeck g =
    (g, if decide (Z.of_nat (length (baseDeckCards n)) = 8 * n)
        then Ok (baseDeckCards n) else Throw Deck_size_mismatch).
Proof.
  unfold _createBaseDeck, mbind, M_bind, get, throwIf. simpl.
  case_decide as Hlen.
  - by rewrite bool_decide_eq_false_2 by (by intros ?).
  - by rewrite bool_decide_eq_true_2 by done.
Qed.

Lemma baseDeckCards_small (n : nat) :
  (n <= 6)%nat →
  let deck := baseDeckCards (Z.of_nat n) in
  length deck = (8 * n)%nat
  ∧ NoDup deck
  ∧ (∀ s, length (filter (λ c, suit c = s) deck) = (2 * n)%nat)
  ∧ Forall (λ c, 15 - 2 * Z.of_nat n <= rank c <= 14) deck
  ∧ ((1 <= n)%nat → Exists (λ c, rank c = 15 - 2 * Z.of_nat n) deck).
Proof.
  intros Hn.
  assert (n = 0 ∨ n = 1 ∨ n = 2 ∨ n = 3 ∨ n = 4 ∨ n = 5 ∨ n = 6)%nat
    as Hcases by lia.
  destruct Hcases as [-> | [-> | [-> | [-> | [-> | [-> | ->]]]]]];
    (split; [vm_compute; reflexivity |]);
    (split; [apply (bool_decide_unpack _); vm_compute; exact I |]);
    (split; [intros []; vm_compute; reflexivity |]);
    (split; [apply (bool_decide_unpack _); vm_compute; exact I |]);
    intros H1; try lia;
    apply (bool_decide_unpack _); vm_compute; exact I.
Qed.

Lemma baseDeckCards_large (n : Z) : 7 <= n → length (baseDeckCards n) = 52%nat.
Proof.
  intros Hn. unfold baseDeckCards.
  assert (filter (λ r, r >= _minRankForPlayers n) RANKS_ASC = RANKS_ASC) as ->.
  { unfold _minRankForPlayers, RANKS_ASC.
    repeat (rewrite filter_cons; rewrite decide_True by lia).
    done. }
  reflexivity.
Qed.

(** C9, the claim as worded: two seats are outside 3..6, yet the base deck
    is built without error, with 16 cards. *)
Lemma base_deck_built_for_two_seats :
  let g := newGame ["a"; "b"] (Num 0) in
  numPlayers g = 2%nat
  ∧ ∃ deck, _createBaseDeck g = (g, Ok deck) ∧ length deck = 16%nat.
Proof.
  split; [reflexivity |].
  eexists. split; [vm_compute; reflexivity | reflexivity].
Qed.

(** C9 (as amended).  Base-deck construction for seat count n succeeds for
    every n from 0 to 6, in particular for every n in 3..6, and then
    returns, without touching the session, exactly 8n distinct cards with 2n
    per suit, all of rank 15 - 2n to 14 and, when n is at least 1, some of
    rank 15 - 2n; it fails with the deck-size-mismatch error for every n
    from 7 on. *)
Theorem base_deck_by_seat_count (g : WhistGame) :
  let n := numPlayers g in
  ((n <= 6)%nat →
     ∃ deck, _createBaseDeck g = (g, Ok deck)
       ∧ length deck = (8 * n)%nat
       ∧ NoDup deck
       ∧ (∀ s, length (filter (λ c, suit c = s) deck) = (2 * n)%nat)
       ∧ (∀ c, c ∈ deck → 15 - 2 * Z.of_nat n <= rank c <= 14)
       ∧ ((1 <= n)%nat → ∃ c, c ∈ deck ∧ rank c = 15 - 2 * Z.of_nat n))
  ∧ ((7 <= n)%nat → _createBaseDeck g = (g, Throw Deck_size_mismatch)).
Proof.
  intros n. split.
  - intros Hn.
    destruct (baseDeckCards_small n Hn) as (Hlen & Hnd & Hsuit & Hall & Hmin).
    exists (baseDeckCards (Z.of_nat n)). split.
    + rewrite _createBaseDeck_run. fold n. rewrite decide_True; [done |].
      rewrite Hlen. lia.
    + split; [done |]. split; [done |]. split; [done |]. split.
      * intros c Hc. by apply (proj1 (Forall_forall _ _) Hall).
      * intros H1. by apply Exists_exists, Hmin.
  - intros Hn. rewrite _createBaseDeck_run. fold n.
    rewrite decide_False; [done |].
    rewrite baseDeckCards_large by lia. lia.
Qed.

Lemma base_deck_by_seat_count_witness :
  ∃ deck, _createBaseDeck sampleDealt = (sampleDealt, Ok deck)
          ∧ length deck = 24%nat.
Proof.
  destruct (proj1 (base_deck_by_seat_count sampleDealt)) as (deck & Hd & Hl & _).
  - vm_compute. repeat constructor.
  - exists deck. split; [exact Hd | exact Hl].
Defined.

(** ** The per-viewer projection of the hands *)

Lemma sliceLast_append_char rs a :
  sliceLast (rs +:+ String a EmptyString) = String a EmptyString.
Proof.
  induction rs as [| b rs IH]; [done |].
  simpl. rewrite IH. by destruct rs.
Qed.

Lemma cardToString_not_HIDDEN c : cardToString c ≠ HIDDEN.
Proof.
  intros H. apply (f_equal sliceLast) in H. unfold cardToString in H.
  destruct (suit c); simpl suitLetter in H;
    rewrite sliceLast_append_char in H; discriminate H.
Qed.

Lemma imap_mask {A} (k : nat) (x : A) (l : list A) :
  imap (λ idx c, if decide (idx < k)%nat then c else x) l
  = take k l ++ replicate (length l - k) x.
Proof.
  revert k. induction l as [| a l IH]; intros k; [by destruct k |].
  rewrite imap_cons. destruct k as [| k].
  - simpl. f_equal.
    rewrite (imap_ext _ (λ idx c, if decide (idx < 0)%nat then c else x)).
    + rewrite IH. simpl. by rewrite Nat.sub_0_r.
    + intros i y _. simpl. by destruct (decide (i < 0)%nat); [lia |].
  - simpl. f_equal.
    rewrite (imap_ext _ (λ idx c, if decide (idx < k)%nat then c else x)).
    + apply IH.
    + intros i y _. simpl.
      destruct (decide (S i < S k)%nat), (decide (i < k)%nat); (done || lia).
Qed.

Lemma handsViewLoop_lookup g viewerId ps acc :
  (∀ p, p ∈ ps → is_Some (hands g !! p)) →
  ∃ view, handsViewLoop g viewerId ps acc = inr view
    ∧ ∀ p, view !! p =
        if decide (p ∈ ps) then handView g viewerId p <$> hands g !! p
        else acc !! p.
Proof.
  revert acc. induction ps as [| q ps IH]; intros acc Hall;
    cbn [handsViewLoop].
  - exists acc. split; [done |]. intros p. rewrite decide_False; [done |].
    apply not_elem_of_nil.
  - destruct (Hall q) as [h Hh]; [left |]. rewrite Hh.
    destruct (IH (<[q := handView g viewerId q h]> acc)) as (view & Hv & Hl).
    { intros p Hp. apply Hall. by right. }
    exists view. split; [done |]. intros p. rewrite Hl.
    destruct (decide (p ∈ ps)) as [Hin | Hnin].
    + rewrite decide_True; [done | by right].
    + destruct (decide (p = q)) as [-> | Hne].
      * rewrite decide_True by left. by rewrite lookup_insert_eq, Hh.
      * rewrite decide_False.
        -- by rewrite lookup_insert_ne.
        -- intros [-> | Hp]%elem_of_cons; done.
Qed.

(** C4.  In the projection built for a viewer (every seat having a hand on
    record), the hand of every seat other than the viewer is replaced by as
    many HIDDEN placeholders as it has cards; the viewer's own hand is shown
    card by card, except that while the phase is choose_trump, the hand size
    is 8 and the viewer is the seat to act, its first five cards are shown
    and the others are placeholders: five cards and three placeholders for
    the eight cards it holds.  No card is ever written as the placeholder,
    and only seats appear in the projection. *)
Theorem hands_view_for_viewer (g : WhistGame) (viewerId : string) :
  handsOnRecord g →
  let choosing := phase g = choose_trump ∧ currentHandSize g = 8
                  ∧ getCurrentBidder g = Some viewerId in
  ∃ view, buildHandsViewFor (Some g) viewerId = inr view
    ∧ (∀ p h, p ∈ playerIds g → p ≠ viewerId → hands g !! p = Some h →
         view !! p = Some (replicate (length h) HIDDEN))
    ∧ (∀ h, viewerId ∈ playerIds g → hands g !! viewerId = Some h →
         ¬ choosing → view !! viewerId = Some (cardToString <$> h))
    ∧ (∀ h, viewerId ∈ playerIds g → hands g !! viewerId = Some h →
         choosing →
         view !! viewerId =
           Some ((cardToString <$> take 5 h) ++ replicate (length h - 5) HIDDEN)
         ∧ (length h = 8%nat →
            view !! viewerId =
              Some ((cardToString <$> take 5 h) ++ replicate 3 HIDDEN)))
    ∧ (∀ c, cardToString c ≠ HIDDEN)
    ∧ (∀ p, p ∉ playerIds g → view !! p = None).
Proof.
  intros Hall choosing. unfold buildHandsViewFor.
  destruct (handsViewLoop_lookup g viewerId (playerIds g) ∅ Hall)
    as (view & Hv & Hl).
  exists view. split; [done |]. split; [| split; [| split; [| split]]].
  - intros p h Hp Hne Hh. rewrite Hl, decide_True, Hh by done. simpl.
    unfold handView. rewrite decide_False by done.
    f_equal. rewrite <-list_fmap_compose.
    rewrite (const_fmap _ h HIDDEN); done.
  - intros h Hp Hh Hnc. rewrite Hl, decide_True, Hh by done. simpl.
    unfold handView. rewrite decide_True by done.
    rewrite decide_False; [done |].
    intros (? & ? & ?). apply Hnc. by repeat split.
  - intros h Hp Hh (Hph & Hsz & Hcur).
    assert (view !! viewerId =
      Some ((cardToString <$> take 5 h) ++ replicate (length h - 5) HIDDEN))
      as Hview.
    { rewrite Hl, decide_True, Hh by done. simpl.
      unfold handView. rewrite decide_True by done.
      rewrite decide_True by done.
      rewrite imap_mask. by rewrite fmap_take, length_fmap. }
    split; [done |]. intros Hlen. by rewrite Hview, Hlen.
  - apply cardToString_not_HIDDEN.
  - intros p Hp. by rewrite Hl, decide_False.
Qed.

Lemma hands_view_for_viewer_witness :
  ∃ view, buildHandsViewFor (Some sampleChoosing) "b" = inr view
    ∧ view !! "b" = Some ["9C"; "AC"; "10D"; "QD"; "9H";
                           "HIDDEN"; "HIDDEN"; "HIDDEN"]
    ∧ view !! "a" = Some (replicate 8 "HIDDEN").
Proof.
  destruct (hands_view_for_viewer sampleChoosing "b")
    as (view & Hv & Hother & _ & Hown & _).
  - unfold handsOnRecord. apply (proj1 (Forall_forall _ _)).
    apply (bool_decide_unpack _). vm_compute. exact I.
  - exists view. split; [exact Hv |]. split.
    + refine (proj2 (Hown [mkCard C_ 9; mkCard C_ 14; mkCard D_ 10;
                           mkCard D_ 12; mkCard H_ 9; mkCard H_ 11;
                           mkCard S_ 13; mkCard S_ 14] _ _ _) _); by_eval.
    + apply (Hother "a" [mkCard C_ 12; mkCard C_ 13; mkCard D_ 11;
                          mkCard D_ 13; mkCard H_ 12; mkCard H_ 14;
                          mkCard S_ 10; mkCard S_ 11]);
        first [by_eval | discriminate].
Defined.

(** ** The automated player *)

(** Where the choice of the automated player is legal: on an empty trick,
    when it can follow suit, and when it holds no trump. *)
Lemma botChoice_legal_unless_must_trump g h c :
  botChoice g h = Some c →
  currentTrick g = [] ∨ holdsSuit h (leadSuit g) ∨ ¬ holdsSuit h (trumpSuit g) →
  legalPlay g h c.
Proof.
  unfold botChoice, legalPlay, holdsSuit. intros Hc Hcase.
  case_decide as Hlen.
  - apply nil_length_inv in Hlen. split; [| by left].
    by eapply list_elem_of_lookup_2.
  - case_decide as Hsame.
    + apply list_elem_of_lookup_2 in Hc.
      apply list_elem_of_filter in Hc as [Hs Hin]. split; [done |]. by right; left.
    + assert (c ∈ h) as Hin by (by eapply list_elem_of_lookup_2).
      split; [done |].
      apply nil_length_inv in Hsame.
      assert (¬ ∃ c0, c0 ∈ h ∧ Some (suit c0) = leadSuit g) as Hnolead.
      { intros (c0 & Hc0 & Hs0).
        assert (c0 ∈ filter (λ c1, Some (suit c1) = leadSuit g) h) as Hf
          by (by apply list_elem_of_filter).
        rewrite Hsame in Hf. by apply elem_of_nil in Hf. }
      destruct Hcase as [Hnil | [Hlead | Htrump]].
      * by left.
      * done.
      * right; right. split; [done | by right].
Qed.

(** C6 fails on the code.  In [sampleBotTurn] it is the automated seat's
    turn in the playing phase; it cannot follow diamonds and holds the jack
    of trumps, so the only legal card is JH; the policy picks 9C, the first
    card of the hand, which is not legal, and [playCard] rejects it, so the
    seat does not act. *)
Theorem bot_submits_illegal_card :
  let h := [mkCard C_ 9; mkCard H_ 11] in
  phase sampleBotTurn = playing
  ∧ getCurrentPlayer sampleBotTurn = Some "c"
  ∧ hands sampleBotTurn !! "c" = Some h
  ∧ botChoice sampleBotTurn h = Some (mkCard C_ 9)
  ∧ ¬ legalPlay sampleBotTurn h (mkCard C_ 9)
  ∧ legalPlay sampleBotTurn h (mkCard H_ 11)
  ∧ botPlay "c" sampleBotTurn = (sampleBotTurn, Throw You_must_play_trump)
  ∧ (playCard "c" "JH" sampleBotTurn).2
    = Ok (mkPlayResult false None).
Proof.
  cbv zeta.
  split; [reflexivity |]. split; [vm_compute; reflexivity |].
  split; [vm_compute; reflexivity |]. split; [vm_compute; reflexivity |].
  split; [| split; [| split; vm_compute; reflexivity]].
  - intros [_ [Hnil | [Hlead | [_ [Htr | Hno]]]]].
    + discriminate Hnil.
    + discriminate Hlead.
    + discriminate Htr.
    + apply Hno. exists (mkCard H_ 11). split; [| reflexivity].
      right; left.
  - split; [right; left |].
    right; right. split; [| by left].
    intros (c0 & Hc0 & Hs0).
    apply elem_of_cons in Hc0 as [-> | Hc0]; [discriminate Hs0 |].
    apply elem_of_cons in Hc0 as [-> | Hc0]; [discriminate Hs0 |].
    by apply elem_of_nil in Hc0.
Qed.

(** ** Invariants of the reachable states *)

Section Preserves.
Context (P : WhistGame → Prop).

Lemma preserves_quiet {A} (m : M A) : quiet m → preserves P m.
Proof. intros Hq g g' r HP Hm. by rewrite (Hq _ _ _ Hm). Qed.

Lemma preserves_bind {A B} (m : M A) (f : A → M B) :
  preserves P m → (∀ a, preserves P (f a)) → preserves P (m ≫= f).
Proof.
  intros Hm Hf g g' r HP. unfold mbind, M_bind.
  destruct (m g) as [g1 [a | e]] eqn:E; intros H.
  - eapply Hf; [| exact H]. by eapply Hm.
  - simplify_eq. by eapply Hm.
Qed.

Lemma preserves_modify (f : WhistGame → WhistGame) :
  (∀ g, P g → P (f g)) → preserves P (modify f).
Proof. intros Hf g g' r HP [= <- _]. by apply Hf. Qed.

(** Two writes that keep [P] only together. *)
Lemma preserves_modify2_bind {B} (f1 f2 : WhistGame → WhistGame) (k : M B) :
  (∀ g, P g → P (f2 (f1 g))) → preserves P k →
  preserves P (modify f1 ≫= λ _, modify f2 ≫= λ _, k).
Proof.
  intros Hf Hk g g' r HP H. unfold mbind, M_bind, modify in H.
  eapply Hk; [| exact H]. by apply Hf.
Qed.

Lemma preserves_forM {A} xs (f : nat → A → M A) a :
  (∀ x b, preserves P (f x b)) → preserves P (forM xs f a).
Proof.
  intros Hf. revert a. induction xs as [| x xs IH]; intros a; simpl.
  - apply preserves_quiet, quiet_ret.
  - apply preserves_bind; [apply Hf | intros b; apply IH].
Qed.
End Preserves.

Lemma resetMap_lookup {V} (v : V) ps p :
  p ∈ ps → resetMap v ps !! p = Some v.
Proof.
  unfold resetMap.
  assert (∀ m : gmap string V, (p ∈ ps ∨ m !! p = Some v) →
               foldl (λ m q, <[q := v]> m) m ps !! p = Some v) as Hgen.
  { induction ps as [| q ps IH]; intros m; simpl.
    - intros [Hin | Hm]; [by apply elem_of_nil in Hin | done].
    - intros [Hin | Hm]; apply IH.
      + apply elem_of_cons in Hin as [-> | Hin]; [right | by left].
        apply lookup_insert_eq.
      + right. destruct (decide (q = p)) as [-> | Hne].
        * apply lookup_insert_eq.
        * by rewrite lookup_insert_ne. }
  intros Hin. apply Hgen. by left.
Qed.

Lemma resetMap_lookup_Some {V} (v w : V) ps p :
  resetMap v ps !! p = Some w → w = v.
Proof.
  unfold resetMap.
  assert (∀ m : gmap string V, (∀ x, m !! p = Some x → x = v) →
               foldl (λ m q, <[q := v]> m) m ps !! p = Some w → w = v) as Hgen.
  { induction ps as [| q ps IH]; intros m Hm; simpl; [apply Hm |].
    apply IH. intros x. destruct (decide (q = p)) as [-> | Hne].
    - rewrite lookup_insert_eq. congruence.
    - rewrite lookup_insert_ne by done. apply Hm. }
  apply Hgen. intros x. by rewrite lookup_empty.
Qed.

Lemma wellFormed_set_hands g k v :
  wellFormed g → wellFormed (set_hands g (<[k := v]> (hands g))).
Proof.
  intros (Hnd & Hh & Hs & Hl). split; [done |]. split; [| done].
  intros p Hp. simpl. apply lookup_insert_is_Some.
  destruct (decide (k = p)); [by left | right]. split; [done | by apply Hh].
Qed.

Lemma wellFormed_newGame ids dealer : NoDup ids → wellFormed (newGame ids dealer).
Proof.
  intros Hnd. unfold newGame, _resetForNextHand, modify. simpl.
  split; [done |]. split; [| split; [| done]].
  - intros p Hp. simpl. rewrite resetMap_lookup; done.
  - intros p st Hst. simpl in Hst.
    apply resetMap_lookup_Some in Hst as ->. simpl. lia.
Qed.

Lemma quiet_skip : quiet skip.
Proof. apply quiet_ret. Qed.

Lemma quiet__createBaseDeck : quiet _createBaseDeck.
Proof. unfold _createBaseDeck. repeat quiet_step. apply quiet_ret. Qed.

#[local] Hint Resolve quiet_skip quiet__createBaseDeck quiet__hasSuit
  quiet_legality everyHandEmpty_quiet : effects.

(** Walk down a computation, leaving the writes to be checked. *)
Ltac preserves_step :=
  first [ apply preserves_quiet; solve [eauto with effects]
        | apply preserves_bind; [| intros ?]
        | apply preserves_modify; intros ? ?
        | case_match | case_decide ].

(** A write to a field the invariant does not read. *)
Ltac wf_same := match goal with H : wellFormed _ |- wellFormed _ => exact H end.

Lemma scoreSeat_streaksBelowFive g p :
  streaksBelowFive g → streaksBelowFive (scoreSeat g p).
Proof.
  intros Hs q st. unfold scoreSeat.
  set (st0 := default (mkStreak None 0) (streaks g !! p)).
  assert (0 <= count st0 <= 4) as Hc0.
  { subst st0. destruct (streaks g !! p) as [s |] eqn:E; simpl; [| lia].
    by apply (Hs p). }
  case_decide as H5; simpl; intros Hq;
    (destruct (decide (p = q)) as [-> | Hne];
     [rewrite lookup_insert_eq in Hq | rewrite lookup_insert_ne in Hq by done;
                                        by apply (Hs q)]).
  - simplify_eq. simpl. lia.
  - simplify_eq. case_decide; simpl in *; lia.
Qed.

Lemma wellFormed_scoreSeat g p : wellFormed g → wellFormed (scoreSeat g p).
Proof.
  intros (Hnd & Hh & Hs & Hl).
  destruct (scoreSeat_frame g p) as (Hp & Ht & Hls & _ & _ & _ & Hhs).
  split; [by rewrite Hp |]. split; [| split].
  - intros q. rewrite Hp, Hhs. apply Hh.
  - by apply scoreSeat_streaksBelowFive.
  - by rewrite Ht, Hls.
Qed.

Lemma wellFormed_foldl_scoreSeat ps g :
  wellFormed g → wellFormed (foldl scoreSeat g ps).
Proof.
  revert g. induction ps as [| p ps IH]; intros g Hwf; simpl; [done |].
  by apply IH, wellFormed_scoreSeat.
Qed.

Lemma wellFormed_reset g :
  wellFormed g →
  wellFormed
    (let ps := playerIds g in
     set_hands (set_tricksWon (set_bids
       (set_pendingPlayTurnIndex (set_leadSuit (set_currentTrick
         (set_trumpSuit (set_phase g waiting) None) []) None) None)
       (resetMap None ps)) (resetMap (Num 0) ps)) (resetMap [] ps)).
Proof.
  intros (Hnd & Hh & Hs & Hl). split; [done |]. split; [| split; [done | done]].
  intros p Hp. simpl. by rewrite resetMap_lookup.
Qed.

Lemma preserves_sortHands ps : preserves wellFormed (sortHands ps).
Proof.
  induction ps as [| p ps IH]; simpl; repeat preserves_step; try done.
  by apply wellFormed_set_hands.
Qed.

Lemma preserves_dealOne startIndex p deck :
  preserves wellFormed (dealOne startIndex p deck).
Proof.
  unfold dealOne. repeat preserves_step.
  by apply wellFormed_set_hands.
Qed.

Lemma preserves_startHand rnd : preserves wellFormed (startHand rnd).
Proof.
  unfold startHand, _resetForNextHand, deal.
  apply preserves_bind; [apply preserves_modify, wellFormed_reset | intros _].
  repeat preserves_step; try wf_same.
  - apply preserves_forM. intros. apply preserves_forM. intros.
    apply preserves_dealOne.
  - apply preserves_sortHands.
Qed.

Lemma preserves__removeCardFromHand p c :
  preserves wellFormed (_removeCardFromHand p c).
Proof.
  unfold _removeCardFromHand. repeat preserves_step.
  by apply wellFormed_set_hands.
Qed.

Lemma preserves_placeBid p bid : preserves wellFormed (placeBid p bid).
Proof.
  unfold placeBid. repeat preserves_step; try wf_same.
  match goal with
  | H : wellFormed _ |- _ => destruct H as (Hnd & Hh & Hs & _)
  end.
  exact (conj Hnd (conj Hh (conj Hs I))).
Qed.

Lemma preserves_chooseTrump p su : preserves wellFormed (chooseTrump p su).
Proof. unfold chooseTrump. repeat preserves_step; wf_same. Qed.

Lemma preserves_resumeAfterTrick : preserves wellFormed resumeAfterTrick.
Proof.
  unfold resumeAfterTrick.
  apply preserves_bind; [apply preserves_quiet, quiet_get | intros g].
  apply preserves_bind; [apply preserves_quiet, quiet_throwIf | intros _].
  apply preserves_modify2_bind.
  - intros g0 (Hnd & Hh & Hs & _). exact (conj Hnd (conj Hh (conj Hs I))).
  - repeat preserves_step; wf_same.
Qed.

Lemma preserves_nextHand rnd : preserves wellFormed (nextHand rnd).
Proof.
  unfold nextHand.
  apply preserves_bind; [apply preserves_quiet, quiet_get | intros g].
  apply preserves_bind; [apply preserves_quiet, quiet_throwIf | intros _].
  apply preserves_bind; [apply preserves_modify; intros; wf_same | intros _].
  apply preserves_bind; [apply preserves_modify; intros; wf_same | intros _].
  apply preserves_startHand.
Qed.

Lemma preserves_playCard p cardStr : preserves wellFormed (playCard p cardStr).
Proof.
  unfold playCard.
  apply preserves_bind; [apply preserves_quiet, quiet_get | intros g].
  apply preserves_bind; [apply preserves_quiet, quiet_throwIf | intros _].
  apply preserves_bind; [apply preserves_quiet, quiet_throwIf | intros _].
  apply preserves_bind; [apply preserves_quiet, quiet_liftE | intros c].
  apply preserves_bind; [apply preserves_quiet, quiet_deref | intros h].
  apply preserves_bind; [apply preserves_quiet, quiet_throwIf | intros _].
  apply preserves_bind; [apply preserves_quiet, quiet_legality | intros _].
  apply preserves_bind; [apply preserves__removeCardFromHand | intros played].
  apply preserves_modify2_bind.
  - intros g0 (Hnd & Hh & Hs & Hl).
    split; [by case_decide |]. split; [by case_decide |].
    split; [by case_decide |].
    case_decide as Hlen; simpl.
    + apply nil_length_inv in Hlen. by rewrite Hlen.
    + destruct (currentTrick g0); [done | exact Hl].
  - unfold _scoreHand.
    repeat preserves_step; try wf_same; by apply wellFormed_foldl_scoreSeat.
Qed.

Lemma elem_of_insert_inv {A} (l : list A) n y p :
  p ∈ <[n := y]> l → p = y ∨ p ∈ l.
Proof.
  revert n. induction l as [| a l IH]; intros n Hp; [by right |].
  destruct n as [| n]; simpl in Hp; apply elem_of_cons in Hp as [-> | Hp].
  - by left.
  - right. by right.
  - right. by left.
  - destruct (IH n Hp) as [-> | Hin]; [by left | right; by right].
Qed.

Lemma NoDup_insert_fresh {A} (l : list A) n y :
  NoDup l → y ∉ l → NoDup (<[n := y]> l).
Proof.
  revert n. induction l as [| a l IH]; intros n Hnd Hy; [done |].
  apply NoDup_cons in Hnd as [Ha Hnd].
  apply not_elem_of_cons in Hy as [Hya Hy].
  destruct n as [| n]; simpl; apply NoDup_cons.
  - done.
  - split; [| by apply IH].
    intros Hin. apply elem_of_insert_inv in Hin as [-> | Hin]; done.
Qed.

Lemma elem_of_insert_NoDup {A} (l : list A) n x y p :
  NoDup l → l !! n = Some x → p ∈ <[n := y]> l → p = y ∨ (p ∈ l ∧ p ≠ x).
Proof.
  revert n. induction l as [| a l IH]; intros n Hnd Hn Hp; [by destruct n |].
  apply NoDup_cons in Hnd as [Ha Hnd]. destruct n as [| n]; simpl in *.
  - simplify_eq. apply elem_of_cons in Hp as [-> | Hp]; [by left | right].
    split; [by right |]. by intros ->.
  - apply elem_of_cons in Hp as [-> | Hp].
    + right. split; [left |]. intros ->. apply Ha.
      by eapply list_elem_of_lookup_2.
    + destruct (IH n Hnd Hn Hp) as [-> | [Hin Hne]]; [by left | right].
      split; [by right | done].
Qed.

Lemma rekey_lookup_Some {V} oldId newId (m : gmap string V) p v :
  rekey oldId newId m !! p = Some v → ∃ q, m !! q = Some v.
Proof.
  unfold rekey. destruct (m !! oldId) as [w |] eqn:E; [| by exists p].
  destruct (decide (p = oldId)) as [-> | Hpo].
  - by rewrite lookup_delete_eq.
  - rewrite lookup_delete_ne by done.
    destruct (decide (newId = p)) as [-> | Hnp].
    + rewrite lookup_insert_eq. intros [= <-]. by exists oldId.
    + rewrite lookup_insert_ne by done. by exists p.
Qed.

Lemma wellFormed_replacePlayerId oldId newId g :
  wellFormed g → newId ∉ playerIds g →
  wellFormed (replacePlayerId oldId newId g).
Proof.
  intros Hwf Hfresh.
  destruct (decide (oldId = newId)) as [<- | Hne];
    [by rewrite replacePlayerId_noop_eq |].
  destruct (decide (oldId ∈ playerIds g)) as [Hin | Hout];
    [| by rewrite replacePlayerId_noop_absent].
  destruct Hwf as (Hnd & Hh & Hs & Hl).
  destruct (replacePlayerId_effect g oldId newId Hin Hne)
    as (n & Hn & _ & ->).
  split; [by apply NoDup_insert_fresh |]. split; [| split].
  - intros p Hp. simpl in Hp |- *.
    destruct (Hh oldId Hin) as [v Hv].
    destruct (rekey_rekeyed oldId newId (hands g) Hne) as (_ & Hmoved & _ & Hrest).
    destruct (elem_of_insert_NoDup _ _ _ _ _ Hnd Hn Hp) as [-> | [Hpin Hpo]].
    + rewrite (Hmoved v Hv). by eexists.
    + destruct (decide (p = newId)) as [-> | Hpn]; [done |].
      rewrite Hrest by done. by apply Hh.
  - intros p st Hst. simpl in Hst.
    apply rekey_lookup_Some in Hst as (q & Hq). by apply (Hs q).
  - simpl. destruct (currentTrick g) as [| e t]; [done |]. simpl in *.
    unfold rekeyEntry. by case_decide.
Qed.

(** Every reachable state has distinct seats, a hand on record for each,
    streak counts below 5 and, on a trick in progress, the suit of its
    first card as lead suit. *)
Lemma reachable_wellFormed g : reachable g → wellFormed g.
Proof.
  induction 1 as [ids dealer Hnd _ | rnd g _ IH | a g _ IH | o n g _ IH Hfresh].
  - by apply wellFormed_newGame.
  - unfold run. destruct (startHand rnd g) as [g' r] eqn:E.
    by apply (preserves_startHand rnd g g' r).
  - destruct a as [p b | p su | p cs | rnd |]; unfold perform; simpl.
    + destruct (placeBid p b g) as [g' r] eqn:E.
      by apply (preserves_placeBid p b g g' r).
    + destruct (chooseTrump p su g) as [g' r] eqn:E.
      by apply (preserves_chooseTrump p su g g' r).
    + destruct (playCard p cs g) as [g' r] eqn:E.
      by apply (preserves_playCard p cs g g' r).
    + destruct (nextHand rnd g) as [g' r] eqn:E.
      by apply (preserves_nextHand rnd g g' r).
    + destruct (resumeAfterTrick g) as [g' r] eqn:E.
      by apply (preserves_resumeAfterTrick g g' r).
  - by apply wellFormed_replacePlayerId.
Qed.
